(** * pyfp: precision thresholds of floating-point approximations

    A shallow embedding of the [fp] package (format model [ieee.py],
    helpers [util.py], search engine [limits.py] in its two revisions)
    together with the properties of its specification.

    The package computes with mpmath's [mpf] numbers.  An [mpf] is a
    binary floating-point number with an unbounded exponent: a signed odd
    mantissa and an exponent.  Every arithmetic operation computes the
    exact result and rounds it to the working precision [mp.prec] of the
    context, to nearest, ties to even.  The working precision is the only
    piece of mutable state; [workprec] changes it for the duration of a
    [with] block. *)

From Stdlib Require Import ZArith QArith Lia Bool String List.
From stdpp Require Import base option list gmap strings.

Local Open Scope Z_scope.

(** ** mpmath numbers *)

(** Finite [mpf] values: [mpf_man * 2 ^ mpf_exp]. *)
Record mpf := Mpf { mpf_man : Z; mpf_exp : Z }.

#[global] Instance mpf_eq_dec : EqDecision mpf.
Proof. solve_decision. Defined.

(** mpmath keeps mantissas odd; zero is [(0, 0)]. *)
Definition mpf_wf (x : mpf) : Prop :=
  (mpf_man x = 0 ∧ mpf_exp x = 0) ∨ Z.odd (mpf_man x) = true.

(** Number of bits of a mantissa ([bitcount] in mpmath). *)
Definition bitcount (m : Z) : Z :=
  if m =? 0 then 0 else Z.log2 (Z.abs m) + 1.

(** A value whose mantissa has at most [p] bits is a number of
    precision [p]. *)
Definition fits (p : Z) (x : mpf) : Prop := bitcount (mpf_man x) ≤ p.

(** Strip trailing zero bits of a mantissa. *)
Fixpoint trim_pos (p : positive) (e : Z) : positive * Z :=
  match p with
  | xO q => trim_pos q (e + 1)
  | _ => (p, e)
  end.

Definition trim (m e : Z) : mpf :=
  match m with
  | Z0 => Mpf 0 0
  | Zpos p => let '(q, e') := trim_pos p e in Mpf (Zpos q) e'
  | Zneg p => let '(q, e') := trim_pos p e in Mpf (Zneg q) e'
  end.

(** [a / 2 ^ n] rounded to nearest, ties to even, for [0 ≤ a], [0 < n]. *)
Definition round_half_even (a n : Z) : Z :=
  let q := a / 2 ^ n in
  let r := a mod 2 ^ n in
  let half := 2 ^ (n - 1) in
  if (half <? r) || ((r =? half) && Z.odd q) then q + 1 else q.

(** mpmath's [normalize]: round the mantissa to [prec] bits, then strip
    trailing zeros. *)
Definition normalize (prec m e : Z) : mpf :=
  let n := bitcount m - prec in
  if 0 <? n
  then trim (Z.sgn m * round_half_even (Z.abs m) n) (e + n)
  else trim m e.

(** [mpf(x)] and unary plus: round to the working precision. *)
Definition mpf_pos (prec : Z) (x : mpf) : mpf :=
  normalize prec (mpf_man x) (mpf_exp x).

Definition mpf_abs (prec : Z) (x : mpf) : mpf :=
  normalize prec (Z.abs (mpf_man x)) (mpf_exp x).

Definition mpf_add (prec : Z) (x y : mpf) : mpf :=
  let e := Z.min (mpf_exp x) (mpf_exp y) in
  normalize prec
    (mpf_man x * 2 ^ (mpf_exp x - e) + mpf_man y * 2 ^ (mpf_exp y - e)) e.

Definition mpf_sub (prec : Z) (x y : mpf) : mpf :=
  let e := Z.min (mpf_exp x) (mpf_exp y) in
  normalize prec
    (mpf_man x * 2 ^ (mpf_exp x - e) - mpf_man y * 2 ^ (mpf_exp y - e)) e.

Definition mpf_mul (prec : Z) (x y : mpf) : mpf :=
  normalize prec (mpf_man x * mpf_man y) (mpf_exp x + mpf_exp y).

(** Division by the constant two ([x / two], [x / 2]): mpmath divides by
    a mantissa-one divisor by shifting the exponent and normalising. *)
Definition mpf_div_two (prec : Z) (x : mpf) : mpf :=
  normalize prec (mpf_man x) (mpf_exp x - 1).

(** Comparisons are exact. *)
Definition mpf_eqb (x y : mpf) : bool :=
  (mpf_man x =? mpf_man y) && (mpf_exp x =? mpf_exp y).

Definition mpf_neb (x y : mpf) : bool := negb (mpf_eqb x y).

Definition mpf_cmp (x y : mpf) : comparison :=
  let e := Z.min (mpf_exp x) (mpf_exp y) in
  (mpf_man x * 2 ^ (mpf_exp x - e) ?= mpf_man y * 2 ^ (mpf_exp y - e)).

Definition mpf_leb (x y : mpf) : bool :=
  match mpf_cmp x y with Gt => false | _ => true end.

Definition mpf_ltb (x y : mpf) : bool :=
  match mpf_cmp x y with Lt => true | _ => false end.

Definition mpf_gtb (x y : mpf) : bool := mpf_ltb y x.

(** The rational number an [mpf] denotes. *)
Definition mpf_value (x : mpf) : Q :=
  (inject_Z (mpf_man x) * Qpower 2 (mpf_exp x))%Q.

(** [mp.power(2, k)] for an integer [k] is exact at any precision. *)
Definition mp_power2 (k : Z) : mpf := Mpf 1 k.

(** ** The interpreter state: working precision, exceptions *)

Inductive exn :=
| KeyError (key : Z)
| NameError (name : string)
| TypeError (what : string)
| RuntimeError (what : string)
| UserError (code : Z).

(** The third outcome only says that the loop budget of the model was
    too small; it is not a behaviour of the program. *)
Inductive outcome (A : Type) :=
| Returns (a : A)
| Raises (e : exn)
| OutOfFuel.
Arguments Returns {A} a.
Arguments Raises {A} e.
Arguments OutOfFuel {A}.

Record mp_context := MpContext { mp_prec : Z }.

Definition M (A : Type) : Type := mp_context → outcome A * mp_context.

#[global] Instance M_ret : MRet M := λ A a s, (Returns a, s).

#[global] Instance M_bind : MBind M := λ A B f m s,
  match m s with
  | (Returns a, s') => f a s'
  | (Raises e, s') => (Raises e, s')
  | (OutOfFuel, s') => (OutOfFuel, s')
  end.

Definition raise {A} (e : exn) : M A := λ s, (Raises e, s).
Definition out_of_fuel {A} : M A := λ s, (OutOfFuel, s).
Definition get_prec : M Z := λ s, (Returns (mp_prec s), s).

(** [with workprec(n): body] — the precision manager saves [mp.prec] on
    entry, sets it to [n], and puts the saved value back on exit,
    whether the body returned or raised. *)
Definition workprec {A} (n : Z) (body : M A) : M A := λ s,
  let origp := mp_prec s in
  let '(r, _) := body (MpContext n) in
  (r, MpContext origp).

(** Arithmetic of the program text, at the working precision. *)
Definition mp_add (x y : mpf) : M mpf := p ← get_prec; mret (mpf_add p x y).
Definition mp_sub (x y : mpf) : M mpf := p ← get_prec; mret (mpf_sub p x y).
Definition mp_mul (x y : mpf) : M mpf := p ← get_prec; mret (mpf_mul p x y).
Definition mp_div_two (x : mpf) : M mpf := p ← get_prec; mret (mpf_div_two p x).
Definition mp_abs (x : mpf) : M mpf := p ← get_prec; mret (mpf_abs p x).
Definition mp_mpf (x : mpf) : M mpf := p ← get_prec; mret (mpf_pos p x).

(** ** util.py *)

Definition zero : mpf := Mpf 0 0.
Definition one : mpf := Mpf 1 0.
(** [two = one + one], evaluated when the module is loaded, at mpmath's
    default precision of 53 bits. *)
Definition two : mpf := mpf_add 53 one one.

(** [mp.floor(mp.log(x, 2))] for a finite [x > 0], at the working
    precision [prec].  mpmath evaluates the quotient of two logarithms
    and rounds it to [prec] bits.  As long as the floor [k] of the exact
    logarithm is below [2 ^ prec] in magnitude, [k] and [k + 1] are
    numbers of that precision and the rounded quotient lies between
    them: its floor is [k], or [k + 1] when [x] is just below a power of
    two.  For larger exponents the quotient is rounded to a multiple of
    a power of two, and the class says nothing about the result. *)
Class MpLog := {
  floor_log2 : Z → mpf → Z;
  floor_log2_spec : ∀ prec x, 0 < mpf_man x →
    Z.abs (mpf_exp x + Z.log2 (mpf_man x)) < 2 ^ prec →
    mpf_exp x + Z.log2 (mpf_man x) ≤ floor_log2 prec x
    ≤ mpf_exp x + Z.log2 (mpf_man x) + 1
}.

(** Integers as mpmath returns them from [floor], including the
    [-inf] that [log] gives at zero. *)
Inductive xint := NegInf | Int (k : Z).

Definition mp_floor_log `{MpLog} (prec : Z) (x : mpf) : xint :=
  if mpf_man x =? 0 then NegInf else Int (floor_log2 prec x).

(** The integer that an integer-valued [mpf] denotes. *)
Definition mpf_int (y : mpf) : Z := mpf_man y * 2 ^ mpf_exp y.

(** [a + k]: the floor is an [mpf], and the sum is rounded to the
    working precision like any other sum. *)
Definition xint_add (prec : Z) (a : xint) (k : Z) : xint :=
  match a with
  | NegInf => NegInf
  | Int n => Int (mpf_int (mpf_add prec (Mpf n 0) (Mpf k 0)))
  end.

(** [mp.power(2, y)]: [2 ** -inf] is zero. *)
Definition mp_power (y : xint) : mpf :=
  match y with NegInf => zero | Int k => mp_power2 k end.

(** [next_power(x)], base [n = 2]; [prec] is the working precision. *)
Definition next_power `{MpLog} (prec : Z) (x : mpf) : mpf :=
  let x := mpf_abs prec x in
  mp_power (xint_add prec (mp_floor_log prec x) 1).

(** ** ieee.py *)

Module IEEEFormat.

Record t := Make {
    name : string;
    bits : Z;
    exp : Z;
    prec : Z;
    bias : Z
  }.

Definition init (name : string) (bits exp prec : Z) : t :=
    {| name := name; bits := bits; exp := exp; prec := prec;
       bias := 2 ^ (exp - 1) - 1 |}.

Definition min_exp (self : t) (denorm : bool) : Z :=
    let min_exp := - (bias self - 1) in
    if denorm then min_exp - (prec self - 1) else min_exp.

Definition max_exp (self : t) : Z := bias self.

Definition min_value (self : t) (denorm : bool) : mpf :=
    mp_power2 (min_exp self denorm).

Definition max_value (self : t) : mpf :=
    mp_power2 (max_exp self).

  (** The loop of [ulp]; [budget] is [min_exp - n], the number of
      halvings [n < min_exp] still allows. *)
Fixpoint ulp_loop (prec : Z) (x : mpf) (budget : nat) (ulp : mpf) : mpf :=
    match budget with
    | O => ulp
    | S budget' =>
        if mpf_neb (mpf_add prec x ulp) x && mpf_neb ulp zero
        then ulp_loop prec x budget' (mpf_div_two prec ulp)
        else ulp
    end.

Definition ulp `{MpLog} (self : t) (x : mpf) : M mpf :=
    x ← mp_mpf x;
    let min_exp := Z.abs (min_exp self true) in
    ulp ← workprec (prec self)
            (p ← get_prec;
             mret (ulp_loop p x (Z.to_nat min_exp) (next_power p x)));
    mp_mul ulp two.

End IEEEFormat.

Definition ieee_float : IEEEFormat.t := IEEEFormat.init "single" 32 8 24.
Definition ieee_double : IEEEFormat.t := IEEEFormat.init "double" 64 11 53.
Definition intel_extended : IEEEFormat.t := IEEEFormat.init "extended" 80 15 63.
Definition ieee_quad : IEEEFormat.t := IEEEFormat.init "quad" 128 15 113.

(** The registry, in insertion order, and as the dictionary it is. *)
Definition ieee_formats_values : list IEEEFormat.t :=
  [ieee_float; ieee_double; intel_extended; ieee_quad].

Definition ieee_formats : gmap Z IEEEFormat.t :=
  foldl (λ d f, <[IEEEFormat.prec f := f]> d) ∅ ieee_formats_values.

(** [prec or mp.prec]: [None] and [0] are falsy. *)
Definition prec_or (prec : option Z) (ambient : Z) : Z :=
  match prec with
  | Some p => if p =? 0 then ambient else p
  | None => ambient
  end.

Definition ieee_format (prec : option Z) : M IEEEFormat.t :=
  ambient ← get_prec;
  let prec := prec_or prec ambient in
  match ieee_formats !! prec with
  | Some fmt => mret fmt
  | None => raise (KeyError prec)
  end.

Definition width_matches (bytes_or_bits : Z) (fmt : IEEEFormat.t) : bool :=
  (bytes_or_bits =? IEEEFormat.bits fmt)
  || (bytes_or_bits =? IEEEFormat.bits fmt / 8).

(** [workfloat] is a generator used as a context manager.  After the
    [with] block the generator is resumed and goes on through the
    remaining formats; yielding a second time is the run-time error of
    [contextlib]. *)
Fixpoint workfloat_resume (bytes_or_bits : Z) (fmts : list IEEEFormat.t) : M unit :=
  match fmts with
  | [] => mret tt
  | fmt :: rest =>
      if width_matches bytes_or_bits fmt
      then workprec (IEEEFormat.prec fmt)
             (raise (RuntimeError "generator didn't stop"))
      else workfloat_resume bytes_or_bits rest
  end.

Fixpoint workfloat_from {A} (bytes_or_bits : Z) (body : M A)
    (fmts : list IEEEFormat.t) : M A :=
  match fmts with
  | [] => raise (KeyError bytes_or_bits)
  | fmt :: rest =>
      if width_matches bytes_or_bits fmt
      then workprec (IEEEFormat.prec fmt)
             (r ← body; _ ← workfloat_resume bytes_or_bits rest; mret r)
      else workfloat_from bytes_or_bits body rest
  end.

(** [with workfloat(bytes_or_bits): body] *)
Definition workfloat {A} (bytes_or_bits : Z) (body : M A) : M A :=
  workfloat_from bytes_or_bits body ieee_formats_values.

(** ** The search engine *)

(** Python callables of one and of two arguments.  They run in the
    interpreter: they see the working precision, may change it, and may
    raise. *)
Definition callable : Type := mpf → M mpf.
Definition predicate : Type := mpf → mpf → M bool.

(** The [limit] argument is a number or a callable. *)
Inductive limit_arg :=
| LimitValue (v : mpf)
| LimitCallable (f : callable).

(** [operator.eq] and [operator.ne]. *)
Definition operator_eq : predicate := λ a b, mret (mpf_eqb a b).
Definition operator_ne : predicate := λ a b, mret (mpf_neb a b).

(** [x is None or x != xstop] *)
Definition differs_from (x : mpf) (xstop : option mpf) : bool :=
  match xstop with None => true | Some v => mpf_neb x v end.

(** [max_steps is None or nsteps != max_steps] *)
Definition below_bound (nsteps : Z) (max_steps : option Z) : bool :=
  match max_steps with None => true | Some m => negb (nsteps =? m) end.

(** The [while] loop shared by [find_fp] and [find_fp_fast]. *)
Fixpoint coarse_loop (fuel : nat) (func limit : callable)
    (xstop : option mpf) (xstep : callable) (compare : predicate)
    (max_steps : option Z) (nsteps : Z) (x : mpf) : M (Z * mpf) :=
  match fuel with
  | O => out_of_fuel
  | S fuel' =>
      if differs_from x xstop && below_bound nsteps max_steps
      then
        fx ← func x;
        lx ← limit x;
        c ← compare fx lx;
        if negb c
        then x' ← xstep x;
             coarse_loop fuel' func limit xstop xstep compare max_steps
               (nsteps + 1) x'
        else mret (nsteps, x)
      else mret (nsteps, x)
  end.

(** [if not callable(limit): limit_value = mpf(limit); def limit(x): ...] *)
Definition as_callable (limit : limit_arg) : M callable :=
  match limit with
  | LimitCallable f => mret f
  | LimitValue v => limit_value ← mp_mpf v; mret (λ _ : mpf, mret limit_value)
  end.

(** The signature of the coarse search. *)
Definition coarse_search : Type :=
  nat → callable → limit_arg → mpf → option mpf → callable → predicate →
  option Z → M (Z * mpf).

(** *** limits.py, the one-phase revision *)

Module Limits.

Definition find_fp : coarse_search :=
    λ fuel func limit xstart xstop xstep compare max_steps,
    limit ← as_callable limit;
    coarse_loop fuel func limit xstop xstep compare max_steps 0 xstart.

Definition find_limit `{MpLog} (fuel : nat) (func : callable)
      (limit : limit_arg) (xstart xstop : option mpf) (nulp : Z)
      (prec : option Z) : M (Z * mpf) :=
    fmt ← ieee_format prec;
    let xstart := default one xstart in
    let xstop := default (IEEEFormat.min_value fmt true) xstop in
    let xstep : callable := λ x, mp_div_two x in
    let compare : predicate :=
      if negb (nulp =? 0)
      then λ fx lx : mpf, d ← mp_sub fx lx; a ← mp_abs d;
                    u ← IEEEFormat.ulp fmt fx; mret (mpf_leb a u)
      else operator_eq in
    ambient ← get_prec;
    workprec (prec_or prec ambient)
      (find_fp fuel func limit xstart (Some xstop) xstep operator_eq
         (Some (Z.abs (IEEEFormat.min_exp fmt true)))).

Definition find_limit_reverse `{MpLog} (fuel : nat) (func : callable)
      (limit : limit_arg) (xstart xstop : option mpf) (nulp : Z)
      (prec : option Z) : M (Z * mpf) :=
    fmt ← ieee_format prec;
    let xstart := default (IEEEFormat.min_value fmt true) xstart in
    let xstop := default one xstop in
    let xstep : callable := λ x, mp_mul x two in
    let compare : predicate :=
      if negb (nulp =? 0)
      then λ fx lx : mpf, d ← mp_sub fx lx; a ← mp_abs d;
                    u ← IEEEFormat.ulp fmt fx; mret (mpf_gtb a u)
      else operator_ne in
    ambient ← get_prec;
    workprec (prec_or prec ambient)
      ('(steps, value) ← find_fp fuel func limit xstart (Some xstop) xstep operator_ne
                           (Some (Z.abs (IEEEFormat.min_exp fmt true)));
       half ← mp_div_two value;
       mret (Z.abs (IEEEFormat.min_exp fmt true) - steps + 1, half)).

End Limits.

(** *** fp/limits.py, the two-phase revision *)

Module FpLimits.

Definition find_fp_fast : coarse_search :=
    λ fuel func limit xstart xstop xstep compare max_steps,
    limit ← as_callable limit;
    coarse_loop fuel func limit xstop xstep compare max_steps 0 xstart.

  (** The module namespace, restricted to the bindings that are coarse
      searches.  The other names bound in the module are the imports
      ([mp], [mpf], [workprec], [eq], [ne], [zero], [one], [two],
      [ieee_format]) and the entry points defined below. *)
Definition module_globals : gmap string coarse_search :=
    {[ "find_fp_fast" := find_fp_fast ]}.

  (** Python resolves a global name when the call is executed. *)
Definition load_global (globals : gmap string coarse_search)
      (name : string) : M coarse_search :=
    match globals !! name with
    | Some f => mret f
    | None => raise (NameError name)
    end.

  (** [limit(x)] without the wrapping that the coarse search does. *)
Definition call (limit : limit_arg) (x : mpf) : M mpf :=
    match limit with
    | LimitCallable f => f x
    | LimitValue _ => raise (TypeError "'mpf' object is not callable")
    end.

Fixpoint bisect_loop (fuel : nat) (func : callable) (limit : limit_arg)
      (compare : predicate) (x : mpf) (last_x : option mpf)
      (lower_limit upper_limit : mpf) (nsteps : Z) : M (Z * mpf) :=
    match fuel with
    | O => out_of_fuel
    | S fuel' =>
        if differs_from x last_x && mpf_neb lower_limit upper_limit
        then
          fx ← func x;
          lx ← call limit x;
          c ← compare fx lx;
          let lower_limit := if (c : bool) then x else lower_limit in
          let upper_limit := if c then upper_limit else x in
          sum ← mp_add upper_limit lower_limit;
          x' ← mp_div_two sum;
          bisect_loop fuel' func limit compare x' (Some x)
            lower_limit upper_limit (nsteps + 1)
        else mret (nsteps, lower_limit)
    end.

Definition bisect_limit `{MpLog} (fuel : nat) (func : callable)
      (limit : limit_arg) (lower_limit : mpf) (upper_limit : option mpf)
      (nulp : Z) (prec : option Z) : M (Z * mpf) :=
    fmt ← ieee_format prec;
    upper_limit ← match upper_limit with
                  | Some u => mret u
                  | None => mp_mul two lower_limit
                  end;
    let compare : predicate :=
      if negb (nulp =? 0)
      then λ fx lx : mpf, d ← mp_sub fx lx; a ← mp_abs d;
                    u ← IEEEFormat.ulp fmt fx; mret (mpf_gtb a u)
      else operator_eq in
    ambient ← get_prec;
    workprec (prec_or prec ambient)
      (bisect_loop fuel func limit compare lower_limit None
         lower_limit upper_limit 0).

Section EntryPoints.

Context `{MpLog}.
    (** The namespace in which the entry points look up [find_fp]. *)
Variable globals : gmap string coarse_search.

    (** The closures [xstep] and [compare] of the forward and of the
        reverse entry points. *)
Definition halve : callable := λ x, mp_div_two x.
Definition double : callable := λ x, mp_mul x two.

Definition within_ulp (fmt : IEEEFormat.t) (nulp : Z) : predicate :=
      if negb (nulp =? 0)
      then λ fx lx : mpf, d ← mp_sub fx lx; a ← mp_abs d;
                    u ← IEEEFormat.ulp fmt fx; mret (mpf_leb a u)
      else operator_eq.

Definition beyond_ulp (fmt : IEEEFormat.t) (nulp : Z) : predicate :=
      if negb (nulp =? 0)
      then λ fx lx : mpf, d ← mp_sub fx lx; a ← mp_abs d;
                    u ← IEEEFormat.ulp fmt fx; mret (mpf_gtb a u)
      else operator_ne.

Definition find_limit_fast (fuel : nat) (func : callable)
        (limit : limit_arg) (xstart xstop : option mpf) (nulp : Z)
        (prec : option Z) : M (Z * mpf) :=
      fmt ← ieee_format prec;
      let xstart := default one xstart in
      let xstop := default (IEEEFormat.min_value fmt true) xstop in
      ambient ← get_prec;
      workprec (prec_or prec ambient)
        (find_fp ← load_global globals "find_fp";
         find_fp fuel func limit xstart (Some xstop) halve
           (within_ulp fmt nulp)
           (Some (Z.abs (IEEEFormat.min_exp fmt true)))).

Definition find_limit_reverse_fast (fuel : nat) (func : callable)
        (limit : limit_arg) (xstart xstop : option mpf) (nulp : Z)
        (prec : option Z) : M (Z * mpf) :=
      fmt ← ieee_format prec;
      let xstart := default (IEEEFormat.min_value fmt true) xstart in
      let xstop := default one xstop in
      ambient ← get_prec;
      workprec (prec_or prec ambient)
        (find_fp ← load_global globals "find_fp";
         '(steps, value) ← find_fp fuel func limit xstart (Some xstop) double
                             (beyond_ulp fmt nulp)
                             (Some (Z.abs (IEEEFormat.min_exp fmt true)));
         half ← mp_div_two value;
         mret (Z.abs (IEEEFormat.min_exp fmt true) - steps + 1, half)).

Definition find_limit (fuel : nat) (func : callable)
        (limit : limit_arg) (xstart xstop : option mpf) (nulp : Z)
        (prec : option Z) : M (mpf * Z * Z) :=
      fmt ← ieee_format prec;
      let xstart := default one xstart in
      let xstop := default (IEEEFormat.min_value fmt true) xstop in
      ambient ← get_prec;
      workprec (prec_or prec ambient)
        (find_fp ← load_global globals "find_fp";
         '(n_min, x_n) ← find_fp fuel func limit xstart (Some xstop) halve
                           (within_ulp fmt nulp)
                           (Some (Z.abs (IEEEFormat.min_exp fmt true)));
         upper ← mp_mul x_n two;
         '(steps, limit) ← bisect_limit fuel func limit x_n (Some upper)
                             nulp prec;
         mret (limit, n_min, steps)).

Definition find_limit_reverse (fuel : nat) (func : callable)
        (limit : limit_arg) (xstart xstop : option mpf) (nulp : Z)
        (prec : option Z) : M (mpf * Z * Z) :=
      fmt ← ieee_format prec;
      let xstart := default (IEEEFormat.min_value fmt true) xstart in
      let xstop := default one xstop in
      ambient ← get_prec;
      workprec (prec_or prec ambient)
        (find_fp ← load_global globals "find_fp";
         '(n_min, x_n) ← find_fp fuel func limit xstart (Some xstop) double
                           (beyond_ulp fmt nulp)
                           (Some (Z.abs (IEEEFormat.min_exp fmt true)));
         let n_min := Z.abs (IEEEFormat.min_exp fmt true) - n_min + 1 in
         lower ← mp_div_two x_n;
         '(steps, limit) ← bisect_limit fuel func limit lower (Some x_n)
                             nulp prec;
         mret (limit, n_min, steps)).

End EntryPoints.

End FpLimits.

(** ** ieee.py: the distance in ulps *)

(** The builtins [min(f1, f2)] and [max(f1, f2)]: the first argument
    unless the second is strictly smaller (larger). *)
Definition py_min (f1 f2 : mpf) : mpf := if mpf_ltb f2 f1 then f2 else f1.
Definition py_max (f1 f2 : mpf) : mpf := if mpf_gtb f2 f1 then f2 else f1.

(** [while lo != hi: lo += self.ulp(lo); dist += 1] *)
Fixpoint dist_loop `{MpLog} (fuel : nat) (self : IEEEFormat.t)
    (lo hi : mpf) (dist : Z) : M Z :=
  match fuel with
  | O => out_of_fuel
  | S fuel' =>
      if mpf_neb lo hi
      then u ← IEEEFormat.ulp self lo;
           lo ← mp_add lo u;
           dist_loop fuel' self lo hi (dist + 1)
      else mret dist
  end.

(** [IEEEFormat.dist(self, f1, f2)] *)
Definition dist `{MpLog} (fuel : nat) (self : IEEEFormat.t)
    (f1 f2 : mpf) : M Z :=
  workprec (IEEEFormat.prec self)
    (lo ← mp_mpf (py_min f1 f2);
     hi ← mp_mpf (py_max f1 f2);
     dist_loop fuel self lo hi 0).

(** ** util.py: [axrange] *)

(** mpmath's division, for a nonzero divisor: a divisor of mantissa one
    shifts the exponent; otherwise the integer quotient is taken with
    guard bits, a nonzero remainder is recorded in one more low bit, and
    the result is normalised. *)
Definition mpf_div (prec : Z) (s t : mpf) : mpf :=
  let sign := Z.sgn (mpf_man s) * Z.sgn (mpf_man t) in
  let sman := Z.abs (mpf_man s) in
  let tman := Z.abs (mpf_man t) in
  if sman =? 0 then zero
  else if tman =? 1
  then normalize prec (sign * sman) (mpf_exp s - mpf_exp t)
  else
    let extra := Z.max 5 (prec - bitcount sman + bitcount tman + 5) in
    let quot := (sman * 2 ^ extra) / tman in
    let rem := (sman * 2 ^ extra) mod tman in
    if rem =? 0
    then normalize prec (sign * quot) (mpf_exp s - mpf_exp t - extra)
    else normalize prec (sign * (2 * quot + 1))
           (mpf_exp s - mpf_exp t - extra - 1).

(** [mpf('0.1')]: one divided by ten, at the working precision. *)
Definition mpf_tenth (prec : Z) : mpf := mpf_div prec (Mpf 1 0) (Mpf 5 1).

(** The generator object: not yet started, suspended at [yield cur], or
    finished. *)
Inductive axrange_state :=
| AxStart (arg0 : mpf) (args : list mpf)
| AxLoop (cur end_ step : mpf)
| AxDone.

(** The arguments [[start, ]stop[, step]]. *)
Definition axrange_args (arg0 : mpf) (args : list mpf) : M (mpf * mpf * mpf) :=
  start ← mp_mpf zero;
  tenth ← (p ← get_prec; mret (mpf_tenth p));
  match args with
  | [] => mret (start, arg0, tenth)
  | end_ :: rest =>
      match rest with
      | [] => mret (arg0, end_, tenth)
      | step :: more =>
          match more with
          | [] => mret (arg0, end_, step)
          | _ :: _ => raise (TypeError "Too many arguments")
          end
      end
  end.

(** [while cur < end: yield cur] *)
Definition axrange_test (cur end_ step : mpf) : M (option mpf * axrange_state) :=
  if mpf_ltb cur end_
  then mret (Some cur, AxLoop cur end_ step)
  else mret (None, AxDone).

(** [next(gen)]: the value yielded, or [None] for [StopIteration],
    with the generator as it is left. *)
Definition axrange_next (gen : axrange_state) : M (option mpf * axrange_state) :=
  match gen with
  | AxStart arg0 args =>
      '(start, end_, step) ← axrange_args arg0 args;
      axrange_test start end_ step
  | AxLoop cur end_ step =>
      cur ← mp_add cur step;
      axrange_test cur end_ step
  | AxDone => mret (None, AxDone)
  end.

(** The first [n] values of the generator, [list(islice(gen, n))]. *)
Fixpoint axrange_take (n : nat) (gen : axrange_state) : M (list mpf) :=
  match n with
  | O => mret []
  | S n' =>
      '(v, gen') ← axrange_next gen;
      match v with
      | None => mret []
      | Some x => rest ← axrange_take n' gen'; mret (x :: rest)
      end
  end.

(** ** trig.py *)

Section Trig.

Context `{MpLog}.
(** mpmath's [cos], [sin], [cospi], [sinpi] and its true division (which
    raises on a zero divisor), and the constant [pi / d180] computed
    when the module is loaded. *)
Variables cos sin cospi sinpi : callable.
Variable truediv : mpf → mpf → M mpf.
Variable pio180 : mpf.
(** The namespace of [fp.limits] at the time of the call. *)
Variable globals : gmap string coarse_search.

Definition d180 : mpf := Mpf 45 2.

Definition cos_small (fuel : nat) (prec : option Z) : M (mpf * Z * Z) :=
  FpLimits.find_limit globals fuel cos (LimitValue one) None None 0 prec.

Definition sin_approx : callable := λ x, mret x.

Definition sin_small (fuel : nat) (prec : option Z) : M (mpf * Z * Z) :=
  FpLimits.find_limit globals fuel sin (LimitCallable sin_approx)
    None None 0 prec.

Definition rad2deg_ratio (radfunc : callable) : callable :=
  λ x, q ← truediv x d180; radfunc q.

Definition cosd : callable := λ x, q ← truediv x d180; cospi q.

Definition sind : callable := λ x, q ← truediv x d180; sinpi q.

Definition tanpi : callable :=
  λ x, sn ← sinpi x; cs ← cospi x; truediv sn cs.

Definition tand : callable := λ x, q ← truediv x d180; tanpi q.

Definition cosd_small (fuel : nat) (prec : option Z) : M (mpf * Z * Z) :=
  FpLimits.find_limit globals fuel cosd (LimitValue one) None None 0 prec.

Definition sind_approx : callable := λ x, mp_mul x pio180.

Definition sind_small (fuel : nat) (prec : option Z) (nulp : Z) :
    M (mpf * Z * Z) :=
  FpLimits.find_limit globals fuel sind (LimitCallable sind_approx)
    None None nulp prec.

Definition tand_small (fuel : nat) (prec : option Z) (nulp : Z) :
    M (mpf * Z * Z) :=
  FpLimits.find_limit globals fuel tand (LimitCallable sind_approx)
    None None nulp prec.

End Trig.

(** A logarithm that never rounds up: the floor of the exact one. *)
Definition exact_log : MpLog.
Proof.
  refine {| floor_log2 := λ _ x, mpf_exp x + Z.log2 (mpf_man x) |}.
  intros prec x _ _. lia.
Defined.

(** The exponents for which [floor(log(x, 2)) + 1] is computed without
    rounding at precision [prec]: with [|x| < 2 ^ K], [K] the number of
    bits of [x] above the binary point, [|K| + 1 < 2 ^ prec]. *)
Definition log_in_range (prec : Z) (x : mpf) : Prop :=
  Z.abs (mpf_exp x + bitcount (mpf_man x)) + 1 < 2 ^ prec.

(** Callables that compute a value and leave the interpreter alone. *)
Definition pure (f : mpf → mpf) : callable := λ x, mret (f x).
Definition pure2 (f : mpf → mpf → bool) : predicate := λ a b, mret (f a b).

(** A callable that never raises (it may still change the precision). *)
Definition never_raises (f : callable) : Prop :=
  ∀ x s, ∃ v s', f x s = (Returns v, s').

(** * Properties *)

(** ** Running computations *)

Lemma run_ret {A} (a : A) (s : mp_context) : (mret a : M A) s = (Returns a, s).
Proof. reflexivity. Qed.

Lemma run_bind {A B} (m : M A) (k : A → M B) (s : mp_context) :
  ((m ≫= k) : M B) s =
  match m s with
  | (Returns a, s') => k a s'
  | (Raises e, s') => (Raises e, s')
  | (OutOfFuel, s') => (OutOfFuel, s')
  end.
Proof. reflexivity. Qed.

Lemma run_bind_returns {A B} (m : M A) (k : A → M B) s a s' :
  m s = (Returns a, s') → ((m ≫= k) : M B) s = k a s'.
Proof. intros E. rewrite run_bind, E. reflexivity. Qed.

Lemma run_bind_raises {A B} (m : M A) (k : A → M B) s e s' :
  m s = (Raises e, s') → ((m ≫= k) : M B) s = (Raises e, s').
Proof. intros E. rewrite run_bind, E. reflexivity. Qed.

Lemma context_eta (s : mp_context) : MpContext (mp_prec s) = s.
Proof. destruct s; reflexivity. Qed.

Lemma workprec_restores {A} (n : Z) (body : M A) (s : mp_context) :
  snd (workprec n body s) = s.
Proof.
  unfold workprec. destruct (body (MpContext n)) as [r s'].
  simpl. apply context_eta.
Qed.

Lemma workprec_run {A} (n : Z) (body : M A) (s : mp_context) :
  workprec n body s = (fst (body (MpContext n)), s).
Proof.
  unfold workprec. destruct (body (MpContext n)) as [r s'].
  simpl. f_equal. apply context_eta.
Qed.

Lemma get_prec_run s : get_prec s = (Returns (mp_prec s), s).
Proof. reflexivity. Qed.

(** ** The registry *)

Ltac in_list :=
  repeat first [apply list_elem_of_here | apply list_elem_of_further].

Lemma ieee_formats_lookup (p : Z) :
  ieee_formats !! p =
  if decide (p = 113) then Some ieee_quad
  else if decide (p = 63) then Some intel_extended
  else if decide (p = 53) then Some ieee_double
  else if decide (p = 24) then Some ieee_float
  else None.
Proof.
  unfold ieee_formats, ieee_formats_values. simpl.
  repeat (rewrite lookup_insert; case_decide; [subst; try done|]);
    repeat case_decide; try lia; try done.
Qed.

Lemma ieee_formats_spec (p : Z) (fmt : IEEEFormat.t) :
  ieee_formats !! p = Some fmt ↔
  fmt ∈ ieee_formats_values ∧ IEEEFormat.prec fmt = p.
Proof.
  rewrite ieee_formats_lookup. unfold ieee_formats_values.
  split.
  - repeat case_decide; intros E; inversion E; subst; split;
      try reflexivity; in_list.
  - intros [Hin <-].
    repeat (apply elem_of_cons in Hin as [-> | Hin]); try done.
    by apply elem_of_nil in Hin.
Qed.

Lemma ieee_format_run (prec : option Z) (s : mp_context) :
  ieee_format prec s =
  match ieee_formats !! prec_or prec (mp_prec s) with
  | Some fmt => (Returns fmt, s)
  | None => (Raises (KeyError (prec_or prec (mp_prec s))), s)
  end.
Proof.
  unfold ieee_format. rewrite run_bind, get_prec_run.
  destruct (ieee_formats !! _); reflexivity.
Qed.

Lemma mpf_value_power2 (k : Z) : (mpf_value (mp_power2 k) == 2 ^ k)%Q.
Proof. unfold mpf_value, mp_power2. simpl. apply Qmult_1_l. Qed.

(** C8.  For every format of the registry: the bias is
    [2 ^ (exponent bits - 1) - 1]; [max_exp] is the bias; [min_exp] is
    [-(bias - 1)] without denormals and [-(bias - 1) - (prec - 1)] with
    them, so the latter is the smaller; [min_value] and [max_value] are
    two raised to these exponents. *)
Theorem format_exponents (fmt : IEEEFormat.t) (denorm : bool) :
  fmt ∈ ieee_formats_values →
  IEEEFormat.bias fmt = 2 ^ (IEEEFormat.exp fmt - 1) - 1
  ∧ IEEEFormat.max_exp fmt = IEEEFormat.bias fmt
  ∧ IEEEFormat.min_exp fmt false = - (IEEEFormat.bias fmt - 1)
  ∧ IEEEFormat.min_exp fmt true
    = - (IEEEFormat.bias fmt - 1) - (IEEEFormat.prec fmt - 1)
  ∧ IEEEFormat.min_exp fmt true ≤ IEEEFormat.min_exp fmt false
  ∧ (mpf_value (IEEEFormat.min_value fmt denorm)
     == 2 ^ IEEEFormat.min_exp fmt denorm)%Q
  ∧ (mpf_value (IEEEFormat.max_value fmt) == 2 ^ IEEEFormat.max_exp fmt)%Q.
Proof.
  intros Hin.
  assert (Hprec : 1 ≤ IEEEFormat.prec fmt
                  ∧ IEEEFormat.bias fmt = 2 ^ (IEEEFormat.exp fmt - 1) - 1).
  { unfold ieee_formats_values in Hin.
    repeat (apply elem_of_cons in Hin as [-> | Hin]); simpl; try lia.
    by apply elem_of_nil in Hin. }
  destruct Hprec as [Hprec Hbias].
  repeat split.
  - exact Hbias.
  - unfold IEEEFormat.min_exp. lia.
  - apply mpf_value_power2.
  - apply mpf_value_power2.
Qed.

Lemma format_exponents_witness :
  ieee_double ∈ ieee_formats_values
  ∧ IEEEFormat.min_exp ieee_double true = -1074
  ∧ IEEEFormat.max_exp ieee_double = 1023.
Proof.
  assert (Hin : ieee_double ∈ ieee_formats_values).
  { unfold ieee_formats_values. apply elem_of_cons. right.
    apply elem_of_cons. left. reflexivity. }
  split; [exact Hin|].
  destruct (format_exponents ieee_double true Hin)
    as (_ & _ & _ & Hmin & _).
  split; reflexivity.
Defined.

(** ** Lookup errors *)

Definition known_precisions : list Z := [24; 53; 63; 113].
Definition known_widths : list Z := [4; 8; 10; 16; 32; 64; 80; 128].

Lemma workfloat_resume_none (b : Z) (fmts : list IEEEFormat.t) (s : mp_context) :
  (∀ f, f ∈ fmts → width_matches b f = false) →
  workfloat_resume b fmts s = (Returns tt, s).
Proof.
  induction fmts as [|f fmts IH]; intros Hno; simpl.
  - reflexivity.
  - rewrite (Hno f) by (apply elem_of_cons; by left).
    apply IH. intros g Hg. apply Hno. apply elem_of_cons. by right.
Qed.

Lemma workprec_then_resume {A} (p b : Z) (body : M A)
    (rest : list IEEEFormat.t) (s : mp_context) :
  (∀ f, f ∈ rest → width_matches b f = false) →
  workprec p (r ← body; _ ← workfloat_resume b rest; mret r) s
  = workprec p body s.
Proof.
  intros Hno. rewrite !workprec_run. f_equal.
  rewrite run_bind. destruct (body (MpContext p)) as [[r| e |] s']; try reflexivity.
  rewrite run_bind, workfloat_resume_none by exact Hno. reflexivity.
Qed.

Ltac width_cases :=
  cbn [IEEEFormat.bits IEEEFormat.prec ieee_float ieee_double
       intel_extended ieee_quad IEEEFormat.init];
  change (32 `div` 8) with 4; change (64 `div` 8) with 8;
  change (80 `div` 8) with 10; change (128 `div` 8) with 16;
  repeat match goal with
         | |- context [?x =? ?y] =>
             destruct (Z.eqb_spec x y); try lia; cbn [orb]
         end.

Lemma workfloat_run {A} (b : Z) (body : M A) (s : mp_context) :
  workfloat b body s =
  if decide (b = 32 ∨ b = 4) then workprec 24 body s
  else if decide (b = 64 ∨ b = 8) then workprec 53 body s
  else if decide (b = 80 ∨ b = 10) then workprec 63 body s
  else if decide (b = 128 ∨ b = 16) then workprec 113 body s
  else (Raises (KeyError b), s).
Proof.
  unfold workfloat, ieee_formats_values.
  repeat case_decide.
  all: cbn [workfloat_from]; unfold width_matches; width_cases.
  all: try reflexivity.
  all: apply workprec_then_resume; intros f Hf;
       repeat (apply elem_of_cons in Hf as [-> | Hf]);
       try (by apply elem_of_nil in Hf);
       unfold width_matches; width_cases; reflexivity.
Qed.

(** C9.  With an explicit nonzero precision, [ieee_format] returns the
    one registered format of that precision when the precision is 24,
    53, 63 or 113 and raises [KeyError] otherwise; the [with] statement
    on [workfloat] raises [KeyError] when the width is none of 4, 8, 10,
    16, 32, 64, 80, 128, and otherwise runs its block at the precision of
    the format of that width. *)
Theorem lookup_errors {A} (prec bytes_or_bits : Z) (body : M A)
    (s : mp_context) :
  prec ≠ 0 →
  (prec ∈ known_precisions →
     ∃ fmt, ieee_format (Some prec) s = (Returns fmt, s)
       ∧ fmt ∈ ieee_formats_values
       ∧ IEEEFormat.prec fmt = prec
       ∧ ∀ fmt', fmt' ∈ ieee_formats_values →
                 IEEEFormat.prec fmt' = prec → fmt' = fmt)
  ∧ (prec ∉ known_precisions →
     ieee_format (Some prec) s = (Raises (KeyError prec), s))
  ∧ (bytes_or_bits ∉ known_widths →
     workfloat bytes_or_bits body s = (Raises (KeyError bytes_or_bits), s))
  ∧ (bytes_or_bits ∈ known_widths →
     ∃ fmt, fmt ∈ ieee_formats_values
       ∧ width_matches bytes_or_bits fmt = true
       ∧ workfloat bytes_or_bits body s
         = workprec (IEEEFormat.prec fmt) body s).
Proof.
  intros Hnz.
  assert (Hor : prec_or (Some prec) (mp_prec s) = prec).
  { unfold prec_or. destruct (Z.eqb_spec prec 0); [contradiction | reflexivity]. }
  split; [|split; [|split]].
  - intros Hin. rewrite ieee_format_run, Hor.
    destruct (ieee_formats !! prec) as [fmt|] eqn:E.
    + apply ieee_formats_spec in E as E'. destruct E' as [Hf Hp].
      exists fmt. repeat split; try assumption.
      intros fmt' Hf' Hp'.
      assert (E' : ieee_formats !! prec = Some fmt')
        by (apply ieee_formats_spec; split; assumption).
      congruence.
    + exfalso. rewrite ieee_formats_lookup in E.
      unfold known_precisions in Hin.
      repeat (apply elem_of_cons in Hin as [-> | Hin]); try discriminate.
      by apply elem_of_nil in Hin.
  - intros Hnot. rewrite ieee_format_run, Hor.
    destruct (ieee_formats !! prec) as [fmt|] eqn:E; [|reflexivity].
    exfalso. apply Hnot. rewrite ieee_formats_lookup in E.
    unfold known_precisions.
    repeat case_decide; try discriminate; subst; in_list.
  - intros Hnot. rewrite workfloat_run.
    repeat case_decide; try reflexivity; exfalso; apply Hnot;
      unfold known_widths;
      repeat match goal with H : _ ∨ _ |- _ => destruct H end;
      subst; in_list.
  - intros Hin. rewrite workfloat_run.
    assert (Hm : ∀ f, width_matches bytes_or_bits f
              = (bytes_or_bits =? IEEEFormat.bits f)
                || (bytes_or_bits =? IEEEFormat.bits f `div` 8))
      by reflexivity.
    repeat case_decide.
    + exists ieee_float. split; [in_list|]. split; [|reflexivity].
      rewrite Hm. width_cases; reflexivity.
    + exists ieee_double. split; [in_list|]. split; [|reflexivity].
      rewrite Hm. width_cases; reflexivity.
    + exists intel_extended. split; [in_list|]. split; [|reflexivity].
      rewrite Hm. width_cases; reflexivity.
    + exists ieee_quad. split; [in_list|]. split; [|reflexivity].
      rewrite Hm. width_cases; reflexivity.
    + exfalso. unfold known_widths in Hin.
      repeat (apply elem_of_cons in Hin as [-> | Hin]); try lia.
      by apply elem_of_nil in Hin.
Qed.

Lemma lookup_errors_witness :
  (53 : Z) ≠ 0
  ∧ ieee_format (Some 7) (MpContext 53) = (Raises (KeyError 7), MpContext 53)
  ∧ workfloat 9 (mret tt) (MpContext 53) = (Raises (KeyError 9), MpContext 53)
  ∧ ∃ fmt, ieee_format (Some 53) (MpContext 53) = (Returns fmt, MpContext 53).
Proof.
  assert (H53 : (53 : Z) ≠ 0) by lia.
  assert (H7 : (7 : Z) ≠ 0) by lia.
  split; [exact H53|].
  destruct (lookup_errors 7 9 (mret tt) (MpContext 53) H7)
    as (_ & Hbad & Hwidth & _).
  destruct (lookup_errors 53 8 (mret tt) (MpContext 53) H53)
    as (Hgood & _).
  split; [|split].
  - apply Hbad. unfold known_precisions. intros Hin.
    repeat (apply elem_of_cons in Hin as [Hin | Hin]); try lia.
    by apply elem_of_nil in Hin.
  - apply Hwidth. unfold known_widths. intros Hin.
    repeat (apply elem_of_cons in Hin as [Hin | Hin]); try lia.
    by apply elem_of_nil in Hin.
  - destruct Hgood as (fmt & Hrun & _).
    + unfold known_precisions. apply elem_of_cons. right.
      apply elem_of_cons. left. reflexivity.
    + exists fmt. exact Hrun.
Defined.

(** ** The working precision is scoped *)

Ltac entry_point_restores :=
  rewrite run_bind, ieee_format_run;
  destruct (ieee_formats !! _); [|reflexivity];
  cbv beta zeta; rewrite run_bind, get_prec_run;
  apply workprec_restores.

(** The one-phase forward search, unfolded: a failed format lookup, or
    the coarse search run at the selected precision. *)
Lemma find_limit_run `{MpLog} (fuel : nat) (func : callable)
    (limit : limit_arg) (xstart xstop : option mpf) (nulp : Z)
    (prec : option Z) (s : mp_context) :
  let p := prec_or prec (mp_prec s) in
  Limits.find_limit fuel func limit xstart xstop nulp prec s =
  match ieee_formats !! p with
  | Some fmt =>
      (fst (Limits.find_fp fuel func limit (default one xstart)
              (Some (default (IEEEFormat.min_value fmt true) xstop))
              (λ x, mp_div_two x) operator_eq
              (Some (Z.abs (IEEEFormat.min_exp fmt true))) (MpContext p)), s)
  | None => (Raises (KeyError p), s)
  end.
Proof.
  intros p. unfold Limits.find_limit.
  rewrite run_bind, ieee_format_run. fold p.
  destruct (ieee_formats !! p); [|reflexivity].
  cbv beta zeta. rewrite run_bind, get_prec_run.
  apply workprec_run.
Qed.

Lemma find_limit_reverse_run `{MpLog} (fuel : nat) (func : callable)
    (limit : limit_arg) (xstart xstop : option mpf) (nulp : Z)
    (prec : option Z) (s : mp_context) :
  let p := prec_or prec (mp_prec s) in
  Limits.find_limit_reverse fuel func limit xstart xstop nulp prec s =
  match ieee_formats !! p with
  | Some fmt =>
      (fst (('(steps, value) ←
               Limits.find_fp fuel func limit
                 (default (IEEEFormat.min_value fmt true) xstart)
                 (Some (default one xstop))
                 (λ x, mp_mul x two) operator_ne
                 (Some (Z.abs (IEEEFormat.min_exp fmt true)));
             half ← mp_div_two value;
             mret (Z.abs (IEEEFormat.min_exp fmt true) - steps + 1, half))
              (MpContext p)), s)
  | None => (Raises (KeyError p), s)
  end.
Proof.
  intros p. unfold Limits.find_limit_reverse.
  rewrite run_bind, ieee_format_run. fold p.
  destruct (ieee_formats !! p); [|reflexivity].
  cbv beta zeta. rewrite run_bind, get_prec_run.
  apply workprec_run.
Qed.

(** C10.  After any call of [find_limit] or [find_limit_reverse], of
    either revision, the working precision is what it was before the
    call, whether the call returned or raised, and whatever the callables
    did to the precision in between; the same holds for the one-phase
    entry points of the two-phase revision. *)
Theorem searches_restore_precision `{MpLog}
    (globals : gmap string coarse_search) (fuel : nat)
    (func : callable) (limit : limit_arg) (xstart xstop : option mpf)
    (nulp : Z) (prec : option Z) (s : mp_context) :
  snd (Limits.find_limit fuel func limit xstart xstop nulp prec s) = s
  ∧ snd (Limits.find_limit_reverse fuel func limit xstart xstop nulp prec s) = s
  ∧ snd (FpLimits.find_limit globals fuel func limit xstart xstop nulp prec s) = s
  ∧ snd (FpLimits.find_limit_reverse globals fuel func limit xstart xstop
           nulp prec s) = s
  ∧ snd (FpLimits.find_limit_fast globals fuel func limit xstart xstop
           nulp prec s) = s
  ∧ snd (FpLimits.find_limit_reverse_fast globals fuel func limit xstart xstop
           nulp prec s) = s
  ∧ match ieee_formats !! prec_or prec (mp_prec s) with
    | Some fmt =>
        Limits.find_limit fuel func limit xstart xstop nulp prec s =
        (fst (Limits.find_fp fuel func limit (default one xstart)
                (Some (default (IEEEFormat.min_value fmt true) xstop))
                (λ x, mp_div_two x) operator_eq
                (Some (Z.abs (IEEEFormat.min_exp fmt true)))
                (MpContext (prec_or prec (mp_prec s)))), s)
    | None => True
    end.
Proof.
  repeat split; [| | | | | |
    pose proof (find_limit_run fuel func limit xstart xstop nulp prec s) as R;
    cbv zeta in R; destruct (ieee_formats !! _); [exact R | exact I]].
  - unfold Limits.find_limit. entry_point_restores.
  - unfold Limits.find_limit_reverse. entry_point_restores.
  - unfold FpLimits.find_limit. entry_point_restores.
  - unfold FpLimits.find_limit_reverse. entry_point_restores.
  - unfold FpLimits.find_limit_fast. entry_point_restores.
  - unfold FpLimits.find_limit_reverse_fast. entry_point_restores.
Qed.

(** ** The coarse search *)

Lemma mpf_eqb_eq (x y : mpf) : mpf_eqb x y = true ↔ x = y.
Proof.
  unfold mpf_eqb. destruct x as [mx ex], y as [my ey]. simpl.
  rewrite andb_true_iff, !Z.eqb_eq. split.
  - intros [-> ->]. reflexivity.
  - intros E. inversion E. split; reflexivity.
Qed.

Lemma mpf_neb_false (x y : mpf) : mpf_neb x y = false ↔ x = y.
Proof. unfold mpf_neb. rewrite negb_false_iff. apply mpf_eqb_eq. Qed.

Lemma mpf_neb_true (x y : mpf) : mpf_neb x y = true ↔ x ≠ y.
Proof.
  unfold mpf_neb. rewrite negb_true_iff, <- not_true_iff_false, mpf_eqb_eq.
  reflexivity.
Qed.

Lemma differs_from_false (x : mpf) (xstop : option mpf) :
  differs_from x xstop = false ↔ xstop = Some x.
Proof.
  destruct xstop as [v|]; simpl.
  - rewrite mpf_neb_false. split; [intros ->; reflexivity | congruence].
  - split; discriminate.
Qed.

Lemma below_bound_false (n : Z) (max_steps : option Z) :
  below_bound n max_steps = false ↔ max_steps = Some n.
Proof.
  destruct max_steps as [m|]; simpl.
  - rewrite negb_false_iff, Z.eqb_eq. split; [intros ->; reflexivity | congruence].
  - split; discriminate.
Qed.

Lemma least_witness (P : nat → Prop) `{∀ n, Decision (P n)} (N : nat) :
  P N → ∃ n, (n <= N)%nat ∧ P n ∧ ∀ k, (k < n)%nat → ¬ P k.
Proof.
  assert (G : ∀ N, (∃ n, (n <= N)%nat ∧ P n ∧ ∀ k, (k < n)%nat → ¬ P k)
                   ∨ (∀ k, (k <= N)%nat → ¬ P k)).
  { clear N. induction N as [|N [(n & Hn & HP & Hmin) | Hnone]].
    - destruct (decide (P 0%nat)) as [H0 | H0].
      + left. exists 0%nat. repeat split; [lia | exact H0 | intros k Hk; lia].
      + right. intros k Hk. assert (k = 0)%nat as -> by lia. exact H0.
    - left. exists n. repeat split; [lia | exact HP | exact Hmin].
    - destruct (decide (P (S N))) as [HS | HS].
      + left. exists (S N). repeat split; [lia | exact HS |].
        intros k Hk. apply Hnone. lia.
      + right. intros k Hk.
        destruct (decide (k = S N)) as [-> | Hne]; [exact HS|].
        apply Hnone. lia. }
  intros HN. destruct (G N) as [Hfound | Hnone]; [exact Hfound|].
  exfalso. exact (Hnone N (Nat.le_refl N) HN).
Qed.

(** What the [limit] argument computes at a context: a callable its
    result, a number the constant function of its conversion. *)
Definition limit_computes (s : mp_context) (limit : limit_arg)
    (l : mpf → mpf) : Prop :=
  match limit with
  | LimitCallable g => ∀ x, g x s = (Returns (l x), s)
  | LimitValue v => ∀ x, l x = mpf_pos (mp_prec s) v
  end.

Section CoarseSearch.

Variables (func xstep : callable) (limit : limit_arg) (compare : predicate).
Variables (f l step : mpf → mpf) (cmp : mpf → mpf → bool).
Variable s : mp_context.
Variables (xstart : mpf) (xstop : option mpf) (max_steps : option Z).

  (** The callables return normally at [s] and leave the context alone. *)
Hypothesis func_runs : ∀ x, func x s = (Returns (f x), s).
Hypothesis xstep_runs : ∀ x, xstep x s = (Returns (step x), s).
Hypothesis compare_runs : ∀ a b, compare a b s = (Returns (cmp a b), s).
Hypothesis limit_runs : limit_computes s limit l.

  (** [xstep] applied [n] times to [xstart]. *)
Definition iterate (n : nat) : mpf := Nat.iter n step xstart.

  (** The loop condition fails at count [n]. *)
Definition stops (n : nat) : Prop :=
    xstop = Some (iterate n)
    ∨ max_steps = Some (Z.of_nat n)
    ∨ cmp (f (iterate n)) (l (iterate n)) = true.

#[local] Instance stops_dec n : Decision (stops n).
Proof. unfold stops. apply _. Defined.

Lemma coarse_loop_runs (g : callable) :
    (∀ x, g x s = (Returns (l x), s)) →
    ∀ (n fuel k : nat),
      (n < fuel)%nat →
      (∀ j, (j < n)%nat → ¬ stops (k + j)) →
      stops (k + n) →
      coarse_loop fuel func g xstop xstep compare max_steps
        (Z.of_nat k) (iterate k) s
      = (Returns (Z.of_nat (k + n), iterate (k + n)), s).
Proof.
    intros Hg. induction n as [|n IH]; intros fuel k Hfuel Hbefore Hstop.
    - destruct fuel as [|fuel]; [lia|]. rewrite Nat.add_0_r in *.
      cbn [coarse_loop].
      destruct (differs_from (iterate k) xstop) eqn:Ed; cbn [andb];
        [|reflexivity].
      destruct (below_bound (Z.of_nat k) max_steps) eqn:Eb; [|reflexivity].
      destruct Hstop as [Hs | [Hs | Hs]].
      + apply differs_from_false in Hs. congruence.
      + apply below_bound_false in Hs. congruence.
      + rewrite (run_bind_returns _ _ _ _ _ (func_runs _)).
        rewrite (run_bind_returns _ _ _ _ _ (Hg _)).
        rewrite (run_bind_returns _ _ _ _ _ (compare_runs _ _)).
        rewrite Hs. reflexivity.
    - destruct fuel as [|fuel]; [lia|].
      assert (Hk : ¬ stops k).
      { specialize (Hbefore 0%nat). rewrite Nat.add_0_r in Hbefore.
        apply Hbefore. lia. }
      cbn [coarse_loop].
      destruct (differs_from (iterate k) xstop) eqn:Ed.
      2:{ exfalso. apply Hk. left. by apply differs_from_false. }
      destruct (below_bound (Z.of_nat k) max_steps) eqn:Eb.
      2:{ exfalso. apply Hk. right. left. by apply below_bound_false. }
      cbn [andb].
      rewrite (run_bind_returns _ _ _ _ _ (func_runs _)).
      rewrite (run_bind_returns _ _ _ _ _ (Hg _)).
      rewrite (run_bind_returns _ _ _ _ _ (compare_runs _ _)).
      destruct (cmp (f (iterate k)) (l (iterate k))) eqn:Ec.
      { exfalso. apply Hk. right. right. exact Ec. }
      cbn [negb].
      rewrite (run_bind_returns _ _ _ _ _ (xstep_runs _)).
      replace (Z.of_nat k + 1) with (Z.of_nat (S k)) by lia.
      change (step (iterate k)) with (iterate (S k)).
      replace (k + S n)%nat with (S k + n)%nat by lia.
      apply IH.
      + lia.
      + intros j Hj. replace (S k + j)%nat with (k + S j)%nat by lia.
        apply Hbefore. lia.
      + replace (S k + n)%nat with (k + S n)%nat by lia. exact Hstop.
Qed.

Lemma as_callable_runs :
    ∃ g, as_callable limit s = (Returns g, s)
         ∧ ∀ x, g x s = (Returns (l x), s).
Proof.
    unfold limit_computes in limit_runs. destruct limit as [v | g]; simpl.
    - eexists. split; [reflexivity|]. intros x. cbn. rewrite limit_runs.
      reflexivity.
    - exists g. split; [reflexivity | exact limit_runs].
Qed.

End CoarseSearch.

(** C1.  With callables that return normally, a sentinel [xstop] (or
    none) and a bound [max_steps], [find_fp] (and [find_fp_fast], which
    is the same function) returns the pair [(n, x)] where [x] is [xstep]
    applied [n] times to [xstart] and [n] is the least count at which [x]
    equals [xstop], or [n] equals [max_steps], or the comparison of
    [func(x)] with [limit(x)] holds; the comparison is false at every
    earlier iterate.  It returns in this way whether or not the
    comparison ever holds, and a [limit] that is a number stands for the
    constant function of its value (see [limit_computes]). *)
Theorem find_fp_result (func xstep : callable) (limit : limit_arg)
    (compare : predicate) (f l step : mpf → mpf) (cmp : mpf → mpf → bool)
    (s : mp_context) (xstart : mpf) (xstop : option mpf) (max_steps : Z) :
  (∀ x, func x s = (Returns (f x), s)) →
  (∀ x, xstep x s = (Returns (step x), s)) →
  (∀ a b, compare a b s = (Returns (cmp a b), s)) →
  limit_computes s limit l →
  0 ≤ max_steps →
  ∃ n : nat,
    Z.of_nat n ≤ max_steps
    ∧ stops f l step cmp xstart xstop (Some max_steps) n
    ∧ (∀ k, (k < n)%nat →
         xstop ≠ Some (iterate step xstart k)
         ∧ Z.of_nat k ≠ max_steps
         ∧ cmp (f (iterate step xstart k)) (l (iterate step xstart k)) = false)
    ∧ ∀ fuel, (n < fuel)%nat →
        Limits.find_fp fuel func limit xstart xstop xstep compare
          (Some max_steps) s
        = (Returns (Z.of_nat n, iterate step xstart n), s)
        ∧ FpLimits.find_fp_fast fuel func limit xstart xstop xstep compare
            (Some max_steps) s
          = (Returns (Z.of_nat n, iterate step xstart n), s).
Proof.
  intros Hf Hstep Hcmp Hl Hm.
  set (P := stops f l step cmp xstart xstop (Some max_steps)).
  assert (HN : P (Z.to_nat max_steps)).
  { unfold P, stops. right. left. f_equal. lia. }
  destruct (least_witness P (H := stops_dec f l step cmp xstart xstop
                                    (Some max_steps)) _ HN)
    as (n & Hle & Hn & Hmin).
  exists n. split; [lia|]. split; [exact Hn|]. split.
  - intros k Hk. specialize (Hmin k Hk). unfold P, stops in Hmin.
    split; [|split].
    + intros E. apply Hmin. left. exact E.
    + intros E. apply Hmin. right. left. f_equal. symmetry. exact E.
    + apply not_true_is_false. intros E.
      apply Hmin. right. right. exact E.
  - intros fuel Hfuel.
    destruct (as_callable_runs limit l s Hl) as (g & Hg & Hgl).
    assert (R : coarse_loop fuel func g xstop xstep compare (Some max_steps)
                  0 xstart s
                = (Returns (Z.of_nat n, iterate step xstart n), s)).
    { apply (coarse_loop_runs func xstep compare f l step cmp s xstart xstop
               (Some max_steps) Hf Hstep Hcmp g Hgl n fuel 0%nat Hfuel).
      - intros j Hj. apply Hmin. exact Hj.
      - exact Hn. }
    split.
    + unfold Limits.find_fp. rewrite (run_bind_returns _ _ _ _ _ Hg). exact R.
    + unfold FpLimits.find_fp_fast.
      rewrite (run_bind_returns _ _ _ _ _ Hg). exact R.
Qed.

(** The search for the exponent at which [1 + x] rounds to [1]: at 24
    bits it takes 24 halvings. *)
Lemma find_fp_result_witness :
  ∃ n : nat,
    Z.of_nat n ≤ 149
    ∧ ∀ fuel, (n < fuel)%nat →
        Limits.find_fp fuel (pure (λ x, mpf_add 24 x one)) (LimitValue one)
          one (Some (mp_power2 (-149))) (pure (mpf_div_two 24))
          (pure2 mpf_eqb) (Some 149) (MpContext 24)
        = (Returns (Z.of_nat n,
                    iterate (mpf_div_two 24) one n), MpContext 24).
Proof.
  destruct (find_fp_result
              (pure (λ x, mpf_add 24 x one)) (pure (mpf_div_two 24))
              (LimitValue one) (pure2 mpf_eqb)
              (λ x, mpf_add 24 x one) (λ _, one) (mpf_div_two 24) mpf_eqb
              (MpContext 24) one (Some (mp_power2 (-149))) 149)
    as (n & Hle & _ & _ & Hrun).
  - intros x. reflexivity.
  - intros x. reflexivity.
  - intros a b. reflexivity.
  - intros x. reflexivity.
  - lia.
  - exists n. split; [exact Hle|].
    intros fuel Hfuel. exact (proj1 (Hrun fuel Hfuel)).
Defined.

(** ** The coarse search is bounded *)

(** A callable halts when it returns or raises. *)
Definition halts (f : callable) : Prop := ∀ x s, fst (f x s) ≠ OutOfFuel.

Definition predicate_halts (c : predicate) : Prop :=
  ∀ a b s, fst (c a b s) ≠ OutOfFuel.

Definition limit_halts (limit : limit_arg) : Prop :=
  match limit with LimitCallable g => halts g | LimitValue _ => True end.

Definition limit_never_raises (limit : limit_arg) : Prop :=
  match limit with LimitCallable g => never_raises g | LimitValue _ => True end.

(** The search ended, and when it returned its count lies in the range. *)
Definition ended_within {A} (lo hi : Z) (r : outcome (Z * A)) : Prop :=
  match r with
  | Returns (n, _) => lo ≤ n ≤ hi
  | Raises _ => True
  | OutOfFuel => False
  end.

Lemma never_raises_halts (f : callable) : never_raises f → halts f.
Proof. intros Hf x s. destruct (Hf x s) as (v & s' & ->). discriminate. Qed.

Lemma coarse_loop_bounded (func limit xstep : callable) (compare : predicate)
    (xstop : option mpf) (m : Z) :
  halts func → halts limit → halts xstep → predicate_halts compare →
  ∀ (fuel : nat) (nsteps : Z) (x : mpf) (s : mp_context),
    0 ≤ nsteps ≤ m →
    m - nsteps < Z.of_nat fuel →
    ended_within nsteps m
      (fst (coarse_loop fuel func limit xstop xstep compare (Some m)
              nsteps x s)).
Proof.
  intros Hfunc Hlimit Hstep Hcmp.
  induction fuel as [|fuel IH]; intros nsteps x s Hn Hfuel; [lia|].
  cbn [coarse_loop].
  destruct (differs_from x xstop); cbn [andb]; [|simpl; lia].
  destruct (below_bound nsteps (Some m)) eqn:Eb; [|simpl; lia].
  simpl in Eb. apply negb_true_iff, Z.eqb_neq in Eb.
  rewrite run_bind.
  pose proof (Hfunc x s) as T1.
  destruct (func x s) as [[fx | e |] s1]; [|exact I | contradiction].
  rewrite run_bind.
  pose proof (Hlimit x s1) as T2.
  destruct (limit x s1) as [[lx | e |] s2]; [|exact I | contradiction].
  rewrite run_bind.
  pose proof (Hcmp fx lx s2) as T3.
  destruct (compare fx lx s2) as [[c | e |] s3]; [|exact I | contradiction].
  destruct c; cbn [negb]; [simpl; lia|].
  rewrite run_bind.
  pose proof (Hstep x s3) as T4.
  destruct (xstep x s3) as [[x' | e |] s4]; [|exact I | contradiction].
  specialize (IH (nsteps + 1) x' s4).
  unfold ended_within in *.
  destruct (fst (coarse_loop fuel func limit xstop xstep compare (Some m)
                   (nsteps + 1) x' s4)) as [[n y] | e |].
  - assert (nsteps + 1 ≤ n ≤ m) by (apply IH; lia). lia.
  - exact I.
  - apply IH; lia.
Qed.

Lemma coarse_loop_returns (func limit xstep : callable) (compare : predicate)
    (xstop : option mpf) (m : Z) :
  never_raises func → never_raises limit → never_raises xstep →
  (∀ a b s, ∃ c s', compare a b s = (Returns c, s')) →
  ∀ (fuel : nat) (nsteps : Z) (x : mpf) (s : mp_context),
    0 ≤ nsteps ≤ m →
    m - nsteps < Z.of_nat fuel →
    ∃ n y s', coarse_loop fuel func limit xstop xstep compare (Some m)
                nsteps x s = (Returns (n, y), s').
Proof.
  intros Hfunc Hlimit Hstep Hcmp.
  induction fuel as [|fuel IH]; intros nsteps x s Hn Hfuel; [lia|].
  cbn [coarse_loop].
  destruct (differs_from x xstop); cbn [andb]; [|by eauto].
  destruct (below_bound nsteps (Some m)) eqn:Eb; [|by eauto].
  simpl in Eb. apply negb_true_iff, Z.eqb_neq in Eb.
  destruct (Hfunc x s) as (fx & s1 & E1).
  rewrite (run_bind_returns _ _ _ _ _ E1).
  destruct (Hlimit x s1) as (lx & s2 & E2).
  rewrite (run_bind_returns _ _ _ _ _ E2).
  destruct (Hcmp fx lx s2) as (c & s3 & E3).
  rewrite (run_bind_returns _ _ _ _ _ E3).
  destruct c; cbn [negb]; [by eauto|].
  destruct (Hstep x s3) as (x' & s4 & E4).
  rewrite (run_bind_returns _ _ _ _ _ E4).
  apply IH; lia.
Qed.

Lemma as_callable_total (limit : limit_arg) (s : mp_context) :
  ∃ g, as_callable limit s = (Returns g, s)
       ∧ (limit_halts limit → halts g)
       ∧ (limit_never_raises limit → never_raises g).
Proof.
  destruct limit as [v | g]; simpl.
  - eexists. split; [reflexivity|]. split.
    + intros _ x s'. discriminate.
    + intros _ x s'. eauto.
  - exists g. auto.
Qed.

Lemma halve_never_raises : never_raises (λ x, mp_div_two x).
Proof. intros x s. eauto. Qed.

Lemma double_never_raises : never_raises (λ x, mp_mul x two).
Proof. intros x s. eauto. Qed.

Lemma find_fp_bounded (func xstep : callable) (limit : limit_arg)
    (compare : predicate) (xstart : mpf) (xstop : option mpf) (m : Z)
    (fuel : nat) (s : mp_context) :
  halts func → limit_halts limit → halts xstep → predicate_halts compare →
  0 ≤ m < Z.of_nat fuel →
  ended_within 0 m
    (fst (Limits.find_fp fuel func limit xstart xstop xstep compare
            (Some m) s)).
Proof.
  intros Hf Hl Hs Hc Hm. unfold Limits.find_fp.
  destruct (as_callable_total limit s) as (g & Hg & Hh & _).
  rewrite (run_bind_returns _ _ _ _ _ Hg).
  apply coarse_loop_bounded; auto; lia.
Qed.

Lemma find_fp_returns (func xstep : callable) (limit : limit_arg)
    (compare : predicate) (xstart : mpf) (xstop : option mpf) (m : Z)
    (fuel : nat) (s : mp_context) :
  never_raises func → limit_never_raises limit → never_raises xstep →
  (∀ a b s, ∃ c s', compare a b s = (Returns c, s')) →
  0 ≤ m < Z.of_nat fuel →
  ∃ n y s', Limits.find_fp fuel func limit xstart xstop xstep compare
              (Some m) s = (Returns (n, y), s').
Proof.
  intros Hf Hl Hs Hc Hm. unfold Limits.find_fp.
  destruct (as_callable_total limit s) as (g & Hg & _ & Hn).
  rewrite (run_bind_returns _ _ _ _ _ Hg).
  apply coarse_loop_returns; auto; lia.
Qed.

Lemma operator_eq_returns :
  ∀ a b s, ∃ c s', operator_eq a b s = (Returns c, s').
Proof. intros a b s. unfold operator_eq. eauto. Qed.

Lemma operator_ne_returns :
  ∀ a b s, ∃ c s', operator_ne a b s = (Returns c, s').
Proof. intros a b s. unfold operator_ne. eauto. Qed.

(** C4.  Whatever [func] and [limit] compute (as long as each call of
    them ends), the coarse search that [find_limit] and
    [find_limit_reverse] launch ends, and its step count is at most
    [abs(min_exp(denorm=True))] of the selected format.  The reverse
    search reports [bound - steps + 1] instead of [steps].  When the
    callables do not raise, both searches return. *)
Theorem coarse_search_terminates `{MpLog} (fuel : nat) (func : callable)
    (limit : limit_arg) (xstart xstop : option mpf) (nulp : Z)
    (prec : option Z) (s : mp_context) (fmt : IEEEFormat.t) :
  ieee_formats !! prec_or prec (mp_prec s) = Some fmt →
  halts func → limit_halts limit →
  Z.abs (IEEEFormat.min_exp fmt true) < Z.of_nat fuel →
  let bound := Z.abs (IEEEFormat.min_exp fmt true) in
  ended_within 0 bound
    (fst (Limits.find_limit fuel func limit xstart xstop nulp prec s))
  ∧ match fst (Limits.find_limit_reverse fuel func limit xstart xstop
                 nulp prec s) with
    | Returns (reported, _) => 0 ≤ bound + 1 - reported ≤ bound
    | Raises _ => True
    | OutOfFuel => False
    end
  ∧ (never_raises func → limit_never_raises limit →
     (∃ n x, fst (Limits.find_limit fuel func limit xstart xstop
                    nulp prec s) = Returns (n, x))
     ∧ (∃ r x, fst (Limits.find_limit_reverse fuel func limit xstart xstop
                      nulp prec s) = Returns (r, x))).
Proof.
  intros Hfmt Hfunc Hlimit Hfuel bound.
  assert (Heq : predicate_halts operator_eq) by (intros a b s'; discriminate).
  assert (Hne : predicate_halts operator_ne) by (intros a b s'; discriminate).
  pose proof (never_raises_halts _ halve_never_raises) as Hhalve.
  pose proof (never_raises_halts _ double_never_raises) as Hdouble.
  rewrite find_limit_run, find_limit_reverse_run, Hfmt. cbn [fst].
  split; [|split].
  - apply find_fp_bounded; auto. fold bound. lia.
  - rewrite run_bind.
    pose proof (find_fp_bounded func (λ x, mp_mul x two) limit operator_ne
                  (default (IEEEFormat.min_value fmt true) xstart)
                  (Some (default one xstop)) bound fuel
                  (MpContext (prec_or prec (mp_prec s)))
                  Hfunc Hlimit Hdouble Hne ltac:(fold bound; lia)) as B.
    fold bound.
    destruct (Limits.find_fp _ _ _ _ _ _ _ _ _) as [[[n v] | e |] s'];
      simpl in B |- *; [lia | exact I | exact B].
  - intros Nf Nl. split.
    + destruct (find_fp_returns func (λ x, mp_div_two x) limit operator_eq
                  (default one xstart)
                  (Some (default (IEEEFormat.min_value fmt true) xstop))
                  bound fuel (MpContext (prec_or prec (mp_prec s)))
                  Nf Nl halve_never_raises operator_eq_returns
                  ltac:(fold bound; lia)) as (n & y & s' & E).
      fold bound. rewrite E. eauto.
    + destruct (find_fp_returns func (λ x, mp_mul x two) limit operator_ne
                  (default (IEEEFormat.min_value fmt true) xstart)
                  (Some (default one xstop))
                  bound fuel (MpContext (prec_or prec (mp_prec s)))
                  Nf Nl double_never_raises operator_ne_returns
                  ltac:(fold bound; lia)) as (n & y & s' & E).
      fold bound. rewrite (run_bind_returns _ _ _ _ _ E). simpl. eauto.
Qed.

(** A pair that never agrees: [func] is constantly one, [limit] is three. *)
Lemma coarse_search_terminates_witness :
  ended_within 0 149
    (fst (Limits.find_limit (H := exact_log) 150 (pure (λ _, one))
            (LimitValue (Mpf 3 0)) None None 0 (Some 24) (MpContext 53))).
Proof.
  assert (Hfmt : ieee_formats !! prec_or (Some 24) (mp_prec (MpContext 53))
                 = Some ieee_float).
  { rewrite ieee_formats_lookup. reflexivity. }
  assert (Hfunc : halts (pure (λ _, one))) by (intros x s; discriminate).
  assert (Hlimit : limit_halts (LimitValue (Mpf 3 0))) by exact I.
  assert (Hfuel : Z.abs (IEEEFormat.min_exp ieee_float true) < Z.of_nat 150)
    by (vm_compute; reflexivity).
  exact (proj1 (coarse_search_terminates (H := exact_log) 150
                  (pure (λ _, one)) (LimitValue (Mpf 3 0)) None None 0
                  (Some 24) (MpContext 53) ieee_float
                  Hfmt Hfunc Hlimit Hfuel)).
Defined.

(** ** The tolerance of the one-phase searches *)

(** The number next to one at 24 bits: [1 + 2 ^ -23]. *)
Definition one_plus_ulp : mpf := Mpf (2 ^ 23 + 1) (-23).

(** C2.  The one-phase [find_limit] and [find_limit_reverse] build the
    tolerance comparison for a nonzero [nulp] and then hand [eq] and [ne]
    to the coarse search: their result does not depend on [nulp].  At 24
    bits, with [func] constantly one and [limit] the next number
    [1 + 2 ^ -23], the two values are within one ulp of each other: the
    search with the tolerance comparison stops at once at [x = 1], while
    [find_limit] with [nulp = 1] runs to the bound, 149 steps; and the
    reverse search with [nulp = 1] stops at once where the tolerance
    comparison would have let it run. *)
Theorem one_phase_search_ignores_nulp :
  (∀ (L : MpLog) fuel func limit xstart xstop nulp prec s,
     Limits.find_limit fuel func limit xstart xstop nulp prec s
     = Limits.find_limit fuel func limit xstart xstop 0 prec s
     ∧ Limits.find_limit_reverse fuel func limit xstart xstop nulp prec s
       = Limits.find_limit_reverse fuel func limit xstart xstop 0 prec s)
  ∧ fst (FpLimits.within_ulp (H := exact_log) ieee_float 1 one one_plus_ulp
           (MpContext 24)) = Returns true
  ∧ fst (Limits.find_fp 150%nat (pure (λ _, one)) (LimitValue one_plus_ulp)
           one (Some (IEEEFormat.min_value ieee_float true))
           FpLimits.halve
           (FpLimits.within_ulp (H := exact_log) ieee_float 1)
           (Some 149) (MpContext 24))
    = Returns (0, one)
  ∧ fst (Limits.find_limit (H := exact_log) 150 (pure (λ _, one))
           (LimitValue one_plus_ulp) None None 1 (Some 24) (MpContext 53))
    = Returns (149, mp_power2 (-149))
  ∧ fst (Limits.find_fp 150%nat (pure (λ _, one)) (LimitValue one_plus_ulp)
           (IEEEFormat.min_value ieee_float true) (Some one)
           FpLimits.double
           (FpLimits.beyond_ulp (H := exact_log) ieee_float 1)
           (Some 149) (MpContext 24))
    = Returns (149, one)
  ∧ fst (Limits.find_limit_reverse (H := exact_log) 150 (pure (λ _, one))
           (LimitValue one_plus_ulp) None None 1 (Some 24) (MpContext 53))
    = Returns (150, mp_power2 (-150)).
Proof.
  split; [|repeat split; vm_compute; reflexivity].
  intros L fuel func limit xstart xstop nulp prec s. split; reflexivity.
Qed.

(** ** Name resolution in the two-phase revision *)

Lemma find_fp_unbound :
  ∀ s, FpLimits.load_global FpLimits.module_globals "find_fp" s
       = (Raises (NameError "find_fp"), s).
Proof. intros s. reflexivity. Qed.

Lemma known_precision_lookup (p : Z) :
  (p ∈ known_precisions → ∃ fmt, ieee_formats !! p = Some fmt)
  ∧ (p ∉ known_precisions → ieee_formats !! p = None).
Proof.
  rewrite ieee_formats_lookup. unfold known_precisions. split.
  - intros Hin.
    repeat (apply elem_of_cons in Hin as [-> | Hin]);
      try (by apply elem_of_nil in Hin); eexists; reflexivity.
  - intros Hnot. repeat case_decide; try reflexivity;
      exfalso; apply Hnot; subst; in_list.
Qed.

Ltac entry_point_fails Hfmt :=
  rewrite run_bind, ieee_format_run, Hfmt;
  cbv beta zeta; try reflexivity;
  rewrite run_bind, get_prec_run;
  rewrite workprec_run, run_bind, find_fp_unbound; reflexivity.

(** C5 (fails as stated): with an unsupported precision the call fails
    in the format lookup, with [KeyError], before the unbound name is
    reached. *)
Lemma entry_point_key_error :
  fst (FpLimits.find_limit_fast (H := exact_log) FpLimits.module_globals
         10 (pure (λ x, x)) (LimitValue one) None None 0 (Some 10)
         (MpContext 53))
  = Raises (KeyError 10)
  ∧ fst (FpLimits.find_limit_fast (H := exact_log) FpLimits.module_globals
           10 (pure (λ x, x)) (LimitValue one) None None 0 (Some 10)
           (MpContext 53))
    ≠ Raises (NameError "find_fp").
Proof. split; [reflexivity | discriminate]. Qed.

(** C5, amended.  No call of an entry point of the two-phase revision
    produces a result: when the selected precision is 24, 53, 63 or 113
    the call fails with [NameError] on [find_fp], which the module does
    not bind; with any other precision it fails with [KeyError] in the
    format lookup.  The working precision is unchanged. *)
Theorem entry_points_fail `{MpLog} (fuel : nat) (func : callable)
    (limit : limit_arg) (xstart xstop : option mpf) (nulp : Z)
    (prec : option Z) (s : mp_context) :
  let p := prec_or prec (mp_prec s) in
  let e := if decide (p ∈ known_precisions)
           then NameError "find_fp" else KeyError p in
  FpLimits.find_limit_fast FpLimits.module_globals fuel func limit
    xstart xstop nulp prec s = (Raises e, s)
  ∧ FpLimits.find_limit_reverse_fast FpLimits.module_globals fuel func limit
      xstart xstop nulp prec s = (Raises e, s)
  ∧ FpLimits.find_limit FpLimits.module_globals fuel func limit
      xstart xstop nulp prec s = (Raises e, s)
  ∧ FpLimits.find_limit_reverse FpLimits.module_globals fuel func limit
      xstart xstop nulp prec s = (Raises e, s).
Proof.
  intros p e. subst e.
  destruct (known_precision_lookup p) as [Hyes Hno].
  case_decide as Hp.
  - destruct (Hyes Hp) as [fmt Hfmt]. unfold p in Hfmt.
    repeat split.
    + unfold FpLimits.find_limit_fast. entry_point_fails Hfmt.
    + unfold FpLimits.find_limit_reverse_fast. entry_point_fails Hfmt.
    + unfold FpLimits.find_limit. entry_point_fails Hfmt.
    + unfold FpLimits.find_limit_reverse. entry_point_fails Hfmt.
  - specialize (Hno Hp). unfold p in Hno.
    repeat split.
    + unfold FpLimits.find_limit_fast. entry_point_fails Hno.
    + unfold FpLimits.find_limit_reverse_fast. entry_point_fails Hno.
    + unfold FpLimits.find_limit. entry_point_fails Hno.
    + unfold FpLimits.find_limit_reverse. entry_point_fails Hno.
Qed.

(** One turn of the bisection loop, for callables that return normally:
    the predicate is evaluated at [x] (the lower edge on the first turn,
    the midpoint of the bracket afterwards); the lower edge moves to [x]
    when it holds and the upper edge otherwise; the next [x] is the
    midpoint of the new bracket.  The loop ends when [x] did not change
    or the edges meet, and returns the count and the lower edge. *)
Lemma bisect_loop_turn (fuel : nat) (func g : callable) (compare : predicate)
    (f l : mpf → mpf) (cmp : mpf → mpf → bool) (s : mp_context)
    (x : mpf) (last_x : option mpf) (lower_limit upper_limit : mpf)
    (nsteps : Z) :
  (∀ y, func y s = (Returns (f y), s)) →
  (∀ y, g y s = (Returns (l y), s)) →
  (∀ a b, compare a b s = (Returns (cmp a b), s)) →
  FpLimits.bisect_loop (S fuel) func (LimitCallable g) compare x last_x
    lower_limit upper_limit nsteps s
  = if differs_from x last_x && mpf_neb lower_limit upper_limit
    then
      let holds := cmp (f x) (l x) in
      let lower' := if holds then x else lower_limit in
      let upper' := if holds then upper_limit else x in
      FpLimits.bisect_loop fuel func (LimitCallable g) compare
        (mpf_div_two (mp_prec s) (mpf_add (mp_prec s) upper' lower'))
        (Some x) lower' upper' (nsteps + 1) s
    else (Returns (nsteps, lower_limit), s).
Proof.
  intros Hf Hg Hc. cbn [FpLimits.bisect_loop].
  destruct (differs_from x last_x && mpf_neb lower_limit upper_limit);
    [|reflexivity].
  rewrite (run_bind_returns _ _ _ _ _ (Hf x)).
  cbn [FpLimits.call].
  rewrite (run_bind_returns _ _ _ _ _ (Hg x)).
  rewrite (run_bind_returns _ _ _ _ _ (Hc _ _)).
  cbv zeta. unfold mp_add, mp_div_two.
  rewrite !run_bind, !get_prec_run. cbn [mret M_ret].
  rewrite !run_bind, !get_prec_run. reflexivity.
Qed.

(** C3.  The two-phase [find_limit] does not return its triple.  As the
    module stands the call ends in [NameError].  Were [find_fp] bound to
    the coarse search, the search for the [x] at which [x + 1] rounds to
    one would return (boundary, coarse steps, bisection steps) when the
    limit is a callable, and would fail in the bisection when the limit
    is the number one, which [bisect_limit] calls. *)
Theorem two_phase_find_limit_fails :
  fst (FpLimits.find_limit (H := exact_log) FpLimits.module_globals 200
         (λ x, mp_add x one) (LimitCallable (pure (λ _, one)))
         None None 0 (Some 24) (MpContext 53))
  = Raises (NameError "find_fp")
  ∧ fst (FpLimits.find_limit (H := exact_log)
           (<["find_fp" := FpLimits.find_fp_fast]> FpLimits.module_globals)
           200 (λ x, mp_add x one) (LimitCallable (pure (λ _, one)))
           None None 0 (Some 24) (MpContext 53))
    = Returns (mp_power2 (-24), 24, 25)
  ∧ fst (FpLimits.find_limit (H := exact_log)
           (<["find_fp" := FpLimits.find_fp_fast]> FpLimits.module_globals)
           200 (λ x, mp_add x one) (LimitValue one)
           None None 0 (Some 24) (MpContext 53))
    = Raises (TypeError "'mpf' object is not callable").
Proof. repeat split; vm_compute; reflexivity. Qed.

(** ** Rounding *)

Lemma pow2_pos (k : Z) : 0 ≤ k → 0 < 2 ^ k.
Proof. intros Hk. apply Z.pow_pos_nonneg; lia. Qed.

Lemma pow2_split (a b : Z) : 0 ≤ a → 0 ≤ b → 2 ^ (a + b) = 2 ^ a * 2 ^ b.
Proof. intros Ha Hb. apply Z.pow_add_r; assumption. Qed.

Lemma pow2_succ (k : Z) : 0 ≤ k → 2 ^ (k + 1) = 2 * 2 ^ k.
Proof. intros Hk. rewrite pow2_split by lia. lia. Qed.

Lemma pow2_even (k : Z) : 0 < k → Z.odd (2 ^ k) = false.
Proof.
  intros Hk. replace k with (k - 1 + 1) by lia.
  rewrite pow2_succ by lia. apply Z.odd_even.
Qed.

Lemma odd_times_pow2_unique (m m' k k' : Z) :
  Z.odd m = true → Z.odd m' = true → 0 ≤ k → 0 ≤ k' →
  m * 2 ^ k = m' * 2 ^ k' → m = m' ∧ k = k'.
Proof.
  intros Hm Hm' Hk Hk' E.
  assert (G : ∀ a b c d, Z.odd a = true → Z.odd b = true → 0 ≤ c → c < d →
                a * 2 ^ c = b * 2 ^ d → False).
  { intros a b c d Ha Hb Hc Hcd E'.
    replace d with (c + (d - c)) in E' by lia.
    rewrite pow2_split in E' by lia.
    assert (a = b * 2 ^ (d - c)).
    { pose proof (pow2_pos c Hc). nia. }
    subst a. rewrite Z.odd_mul, (pow2_even (d - c)) in Ha by lia.
    rewrite andb_false_r in Ha. discriminate. }
  destruct (Z.lt_trichotomy k k') as [Hlt | [-> | Hgt]].
  - exfalso. exact (G m m' k k' Hm Hm' Hk Hlt E).
  - split; [|reflexivity]. pose proof (pow2_pos k' Hk'). nia.
  - exfalso. symmetry in E. exact (G m' m k' k Hm' Hm Hk' Hgt E).
Qed.

Lemma trim_pos_spec (p : positive) (e : Z) :
  Z.pos p = Z.pos (fst (trim_pos p e)) * 2 ^ (snd (trim_pos p e) - e)
  ∧ e ≤ snd (trim_pos p e)
  ∧ Z.odd (Z.pos (fst (trim_pos p e))) = true.
Proof.
  revert e. induction p as [p IH | p IH |]; intros e.
  - simpl. rewrite Z.sub_diag. split; [lia|]. split; [lia | reflexivity].
  - cbn [trim_pos]. destruct (IH (e + 1)) as (Hv & He & Ho).
    split; [|split; [lia | exact Ho]].
    replace (snd (trim_pos p (e + 1)) - e)
      with (snd (trim_pos p (e + 1)) - (e + 1) + 1) by lia.
    rewrite pow2_succ by lia. rewrite Pos2Z.inj_xO. lia.
  - simpl. rewrite Z.sub_diag. split; [lia|]. split; [lia | reflexivity].
Qed.

(** [trim] keeps the value and the sign and leaves an odd mantissa. *)
Lemma trim_spec (m e : Z) :
  m ≠ 0 →
  m = mpf_man (trim m e) * 2 ^ (mpf_exp (trim m e) - e)
  ∧ e ≤ mpf_exp (trim m e)
  ∧ Z.odd (mpf_man (trim m e)) = true.
Proof.
  intros Hm. destruct m as [|p|p]; [contradiction| |].
  - unfold trim. pose proof (trim_pos_spec p e) as H.
    destruct (trim_pos p e) as [q e']. exact H.
  - unfold trim. pose proof (trim_pos_spec p e) as (Hv & He & Ho).
    destruct (trim_pos p e) as [q e']. simpl in *.
    split; [|split; [exact He | exact Ho]].
    rewrite <- Pos2Z.opp_pos, Hv. lia.
Qed.

Lemma trim_zero (e : Z) : trim 0 e = zero.
Proof. reflexivity. Qed.

Lemma mpf_eta (x : mpf) : Mpf (mpf_man x) (mpf_exp x) = x.
Proof. destruct x; reflexivity. Qed.

Lemma trim_shift (m k e : Z) :
  Z.odd m = true → 0 ≤ k → trim (m * 2 ^ k) e = Mpf m (e + k).
Proof.
  intros Hm Hk.
  assert (Hnz : m * 2 ^ k ≠ 0).
  { pose proof (pow2_pos k Hk). destruct m; [discriminate | lia | lia]. }
  destruct (trim_spec (m * 2 ^ k) e Hnz) as (Hv & He & Ho).
  assert (Hk' : 0 ≤ mpf_exp (trim (m * 2 ^ k) e) - e) by lia.
  destruct (odd_times_pow2_unique _ _ _ _ Hm Ho Hk Hk' Hv) as [E1 E2].
  rewrite <- (mpf_eta (trim _ _)). f_equal; lia.
Qed.

Lemma trim_odd (m e : Z) : Z.odd m = true → trim m e = Mpf m e.
Proof.
  intros Hm. pose proof (trim_shift m 0 e Hm ltac:(lia)) as H.
  rewrite Z.pow_0_r, Z.mul_1_r, Z.add_0_r in H. exact H.
Qed.

Lemma bitcount_bounds (m : Z) :
  m ≠ 0 → 1 ≤ bitcount m ∧ 2 ^ (bitcount m - 1) ≤ Z.abs m < 2 ^ bitcount m.
Proof.
  intros Hm. unfold bitcount.
  destruct (Z.eqb_spec m 0) as [|_]; [contradiction|].
  assert (Ha : 0 < Z.abs m) by lia.
  pose proof (Z.log2_spec (Z.abs m) Ha) as Hs.
  pose proof (Z.log2_nonneg (Z.abs m)).
  replace (Z.log2 (Z.abs m) + 1 - 1) with (Z.log2 (Z.abs m)) by lia.
  replace (Z.succ (Z.log2 (Z.abs m))) with (Z.log2 (Z.abs m) + 1) in Hs by lia.
  lia.
Qed.

Lemma bitcount_unique (m b : Z) :
  1 ≤ b → 2 ^ (b - 1) ≤ Z.abs m < 2 ^ b → bitcount m = b.
Proof.
  intros Hb Hm. unfold bitcount.
  assert (0 < 2 ^ (b - 1)) by (apply pow2_pos; lia).
  destruct (Z.eqb_spec m 0) as [-> | _]; [simpl in Hm; lia|].
  rewrite (Z.log2_unique (Z.abs m) (b - 1)); [lia | lia |].
  replace (Z.succ (b - 1)) with b by lia. exact Hm.
Qed.

Lemma bitcount_le (a b : Z) :
  a ≠ 0 → Z.abs a ≤ Z.abs b → bitcount a ≤ bitcount b.
Proof.
  intros Ha Hab. unfold bitcount.
  destruct (Z.eqb_spec a 0) as [|_]; [contradiction|].
  destruct (Z.eqb_spec b 0) as [-> | _]; [simpl in Hab; lia|].
  pose proof (Z.log2_le_mono (Z.abs a) (Z.abs b) Hab). lia.
Qed.

Lemma bitcount_lt_pow2 (m p : Z) :
  0 ≤ p → Z.abs m < 2 ^ p → bitcount m ≤ p.
Proof.
  intros Hp Hm. unfold bitcount.
  destruct (Z.eqb_spec m 0) as [-> | Hnz]; [lia|].
  assert (Ha : 0 < Z.abs m) by lia.
  apply (Z.log2_lt_pow2 (Z.abs m) p Ha) in Hm. lia.
Qed.

Lemma round_half_even_bounds (a n : Z) :
  a / 2 ^ n ≤ round_half_even a n ≤ a / 2 ^ n + 1.
Proof. unfold round_half_even. destruct (_ || _); lia. Qed.

(** Rounding a remainder below, above, or at one half. *)
Lemma round_half_even_down (q r n : Z) :
  1 ≤ n → 0 ≤ r < 2 ^ (n - 1) → round_half_even (q * 2 ^ n + r) n = q.
Proof.
  intros Hn Hr. unfold round_half_even.
  assert (Hp : 2 ^ n = 2 * 2 ^ (n - 1)).
  { replace n with (n - 1 + 1) at 1 by lia. apply pow2_succ. lia. }
  assert (Hq : (q * 2 ^ n + r) / 2 ^ n = q).
  { symmetry. apply (Z.div_unique _ _ q r); [left; lia | lia]. }
  assert (Hm : (q * 2 ^ n + r) mod 2 ^ n = r).
  { symmetry. apply (Z.mod_unique _ _ q r); [left; lia | lia]. }
  rewrite Hq, Hm.
  destruct (Z.ltb_spec (2 ^ (n - 1)) r); [lia|].
  destruct (Z.eqb_spec r (2 ^ (n - 1))); [lia|]. reflexivity.
Qed.

Lemma round_half_even_up (q r n : Z) :
  1 ≤ n → 2 ^ (n - 1) < r < 2 ^ n → round_half_even (q * 2 ^ n + r) n = q + 1.
Proof.
  intros Hn Hr. unfold round_half_even.
  assert (0 < 2 ^ (n - 1)) by (apply pow2_pos; lia).
  assert (Hq : (q * 2 ^ n + r) / 2 ^ n = q).
  { symmetry. apply (Z.div_unique _ _ q r); [left; lia | lia]. }
  assert (Hm : (q * 2 ^ n + r) mod 2 ^ n = r).
  { symmetry. apply (Z.mod_unique _ _ q r); [left; lia | lia]. }
  rewrite Hq, Hm.
  destruct (Z.ltb_spec (2 ^ (n - 1)) r); [reflexivity | lia].
Qed.

Lemma round_half_even_tie_odd (q n : Z) :
  1 ≤ n → Z.odd q = true →
  round_half_even (q * 2 ^ n + 2 ^ (n - 1)) n = q + 1.
Proof.
  intros Hn Hq. unfold round_half_even.
  assert (0 < 2 ^ (n - 1)) by (apply pow2_pos; lia).
  assert (Hp : 2 ^ n = 2 * 2 ^ (n - 1)).
  { replace n with (n - 1 + 1) at 1 by lia. apply pow2_succ. lia. }
  assert (Hd : (q * 2 ^ n + 2 ^ (n - 1)) / 2 ^ n = q).
  { symmetry. apply (Z.div_unique _ _ q (2 ^ (n - 1))); [left; lia | lia]. }
  assert (Hm : (q * 2 ^ n + 2 ^ (n - 1)) mod 2 ^ n = 2 ^ (n - 1)).
  { symmetry. apply (Z.mod_unique _ _ q (2 ^ (n - 1))); [left; lia | lia]. }
  rewrite Hd, Hm, Hq, Z.eqb_refl.
  destruct (_ <? _); reflexivity.
Qed.

Lemma normalize_zero (prec e : Z) : normalize prec 0 e = zero.
Proof. unfold normalize. destruct (0 <? _); reflexivity. Qed.

Lemma normalize_fits_id (prec m e : Z) :
  Z.odd m = true → bitcount m ≤ prec → normalize prec m e = Mpf m e.
Proof.
  intros Hm Hb. unfold normalize.
  destruct (Z.ltb_spec 0 (bitcount m - prec)); [lia|].
  apply trim_odd. exact Hm.
Qed.

Lemma odd_abs (m : Z) : Z.odd (Z.abs m) = Z.odd m.
Proof. destruct m as [|p|p]; try reflexivity; destruct p; reflexivity. Qed.

(** What [normalize] guarantees of its result. *)
Lemma normalize_spec (prec m e : Z) :
  1 ≤ prec → m ≠ 0 →
  Z.sgn (mpf_man (normalize prec m e)) = Z.sgn m
  ∧ e + Z.max 0 (bitcount m - prec) ≤ mpf_exp (normalize prec m e)
  ∧ Z.odd (mpf_man (normalize prec m e)) = true
  ∧ bitcount (mpf_man (normalize prec m e)) ≤ prec.
Proof.
  intros Hp Hm. unfold normalize.
  destruct (bitcount_bounds m Hm) as (Hb1 & Hlo & Hhi).
  destruct (Z.ltb_spec 0 (bitcount m - prec)) as [Hn | Hn].
  - set (n := bitcount m - prec) in *.
    set (t := round_half_even (Z.abs m) n).
    assert (H2n : 0 < 2 ^ n) by (apply pow2_pos; lia).
    assert (Hq : 2 ^ (prec - 1) ≤ Z.abs m / 2 ^ n < 2 ^ prec).
    { split.
      - apply Z.div_le_lower_bound; [lia|].
        rewrite Z.mul_comm, <- pow2_split by lia.
        replace (prec - 1 + n) with (bitcount m - 1) by lia. exact Hlo.
      - apply Z.div_lt_upper_bound; [lia|].
        rewrite <- pow2_split by lia.
        replace (n + prec) with (bitcount m) by lia. exact Hhi. }
    pose proof (round_half_even_bounds (Z.abs m) n) as Ht. fold t in Ht.
    assert (H2p : 0 < 2 ^ (prec - 1)) by (apply pow2_pos; lia).
    assert (Hnz : Z.sgn m * t ≠ 0) by nia.
    destruct (trim_spec (Z.sgn m * t) (e + n) Hnz) as (Hv & He & Ho).
    set (r := trim (Z.sgn m * t) (e + n)) in *.
    assert (H2k : 0 < 2 ^ (mpf_exp r - (e + n))) by (apply pow2_pos; lia).
    split; [|split; [|split]].
    + nia.
    + lia.
    + exact Ho.
    + apply bitcount_lt_pow2; [lia|].
      assert (Habs : Z.abs (mpf_man r) * 2 ^ (mpf_exp r - (e + n)) = t) by nia.
      destruct (Z.lt_ge_cases (Z.abs (mpf_man r)) (2 ^ prec)) as [|Hge];
        [assumption|exfalso].
      assert (Hk0 : 2 ^ (mpf_exp r - (e + n)) = 1) by nia.
      assert (Hr : Z.abs (mpf_man r) = 2 ^ prec) by nia.
      assert (Hodd : Z.odd (Z.abs (mpf_man r)) = true)
        by (rewrite odd_abs; exact Ho).
      rewrite Hr, pow2_even in Hodd by lia. discriminate.
  - destruct (trim_spec m e Hm) as (Hv & He & Ho).
    set (r := trim m e) in *.
    assert (H2k : 0 < 2 ^ (mpf_exp r - e)) by (apply pow2_pos; lia).
    split; [|split; [|split]].
    + nia.
    + lia.
    + exact Ho.
    + assert (Hrz : mpf_man r ≠ 0) by (intros E; rewrite E in Ho; discriminate).
      pose proof (bitcount_le (mpf_man r) m Hrz ltac:(nia)). lia.
Qed.

(** ** Adding a small power of two *)

(** The sum [m * 2 ^ e + 2 ^ j] for [j < e]: its mantissa at exponent [j]. *)
Lemma mpf_add_pow2_below (prec m e j : Z) :
  j ≤ e →
  mpf_add prec (Mpf m e) (Mpf 1 j) = normalize prec (m * 2 ^ (e - j) + 1) j.
Proof.
  intros Hj. unfold mpf_add. cbn [mpf_man mpf_exp].
  rewrite Z.min_r by lia. rewrite Z.sub_diag, Z.pow_0_r, Z.mul_1_l.
  reflexivity.
Qed.

Lemma mpf_add_pow2_above (prec m e j : Z) :
  e ≤ j →
  mpf_add prec (Mpf m e) (Mpf 1 j) = normalize prec (m + 2 ^ (j - e)) e.
Proof.
  intros Hj. unfold mpf_add. cbn [mpf_man mpf_exp].
  rewrite Z.min_l by lia. rewrite Z.sub_diag, Z.pow_0_r, Z.mul_1_r, Z.mul_1_l.
  reflexivity.
Qed.

(** A positive number of precision [prec] absorbs a power of two that
    is below a quarter of its last place. *)
Lemma add_absorbed_pos (prec m e c n : Z) :
  0 < m → Z.odd m = true → bitcount m + c = prec → 0 ≤ c → 2 ≤ n →
  normalize prec (m * 2 ^ (c + n) + 1) (e - (c + n)) = Mpf m e.
Proof.
  intros Hm Ho Hc Hc0 Hn.
  destruct (bitcount_bounds m ltac:(lia)) as (Hb1 & Hlo & Hhi).
  rewrite Z.abs_eq in Hlo, Hhi by lia.
  set (b := bitcount m) in *.
  assert (X : 0 < 2 ^ (b - 1)) by (apply pow2_pos; lia).
  assert (Xb : 2 ^ b = 2 * 2 ^ (b - 1)).
  { replace b with (b - 1 + 1) at 1 by lia. apply pow2_succ. lia. }
  assert (C : 0 < 2 ^ c) by (apply pow2_pos; lia).
  assert (N : 4 ≤ 2 ^ n).
  { change 4 with (2 ^ 2). apply Z.pow_le_mono_r; lia. }
  assert (Nh : 2 ^ n = 2 * 2 ^ (n - 1)).
  { replace n with (n - 1 + 1) at 1 by lia. apply pow2_succ. lia. }
  assert (D : 2 ^ (c + n) = 2 ^ c * 2 ^ n) by (apply pow2_split; lia).
  assert (Hbc : bitcount (m * 2 ^ (c + n) + 1) = b + (c + n)).
  { apply bitcount_unique; [lia|].
    replace (b + (c + n) - 1) with (b - 1 + (c + n)) by lia.
    rewrite !pow2_split by lia. rewrite Z.abs_eq by nia. rewrite Xb. nia. }
  unfold normalize. rewrite Hbc.
  replace (b + (c + n) - prec) with n by lia.
  destruct (Z.ltb_spec 0 n); [|lia].
  rewrite Z.abs_eq by nia. rewrite Z.sgn_pos by nia. rewrite Z.mul_1_l.
  replace (m * 2 ^ (c + n) + 1) with (m * 2 ^ c * 2 ^ n + 1) by (rewrite D; ring).
  rewrite round_half_even_down by lia.
  rewrite trim_shift by (assumption || lia). f_equal. lia.
Qed.

Lemma add_absorbed_neg (prec m e c n : Z) :
  m < -1 → Z.odd m = true → bitcount m + c = prec → 0 ≤ c → 2 ≤ n →
  normalize prec (m * 2 ^ (c + n) + 1) (e - (c + n)) = Mpf m e.
Proof.
  intros Hm Ho Hc Hc0 Hn.
  destruct (bitcount_bounds m ltac:(lia)) as (Hb1 & Hlo & Hhi).
  rewrite Z.abs_neq in Hlo, Hhi by lia.
  set (b := bitcount m) in *.
  assert (Hb2 : 2 ≤ b).
  { destruct (Z.eq_dec b 1) as [E|]; [|lia].
    rewrite E in Hhi. change (2 ^ 1) with 2 in Hhi. lia. }
  assert (X : 0 < 2 ^ (b - 1)) by (apply pow2_pos; lia).
  assert (Xb : 2 ^ b = 2 * 2 ^ (b - 1)).
  { replace b with (b - 1 + 1) at 1 by lia. apply pow2_succ. lia. }
  assert (Hne : - m ≠ 2 ^ (b - 1)).
  { intros E. assert (Hodd : Z.odd (- m) = true) by (rewrite Z.odd_opp; exact Ho).
    rewrite E, pow2_even in Hodd by lia. discriminate. }
  assert (C : 0 < 2 ^ c) by (apply pow2_pos; lia).
  assert (N : 4 ≤ 2 ^ n).
  { change 4 with (2 ^ 2). apply Z.pow_le_mono_r; lia. }
  assert (Nh : 2 ^ n = 2 * 2 ^ (n - 1)).
  { replace n with (n - 1 + 1) at 1 by lia. apply pow2_succ. lia. }
  assert (D : 2 ^ (c + n) = 2 ^ c * 2 ^ n) by (apply pow2_split; lia).
  assert (Hneg : m * 2 ^ (c + n) + 1 < 0) by (rewrite D; nia).
  assert (Hbc : bitcount (m * 2 ^ (c + n) + 1) = b + (c + n)).
  { apply bitcount_unique; [lia|].
    replace (b + (c + n) - 1) with (b - 1 + (c + n)) by lia.
    rewrite !pow2_split by lia. rewrite Z.abs_neq by lia. rewrite Xb. nia. }
  unfold normalize. rewrite Hbc.
  replace (b + (c + n) - prec) with n by lia.
  destruct (Z.ltb_spec 0 n); [|lia].
  rewrite Z.abs_neq by lia. rewrite Z.sgn_neg by lia.
  replace (- (m * 2 ^ (c + n) + 1))
    with ((- m * 2 ^ c - 1) * 2 ^ n + (2 ^ n - 1)) by (rewrite D; ring).
  rewrite round_half_even_up by lia.
  replace (-1 * (- m * 2 ^ c - 1 + 1)) with (m * 2 ^ c) by ring.
  rewrite trim_shift by (assumption || lia). f_equal. lia.
Qed.

Lemma add_absorbed_minus_one (prec e n : Z) :
  1 ≤ prec → 1 ≤ n →
  normalize prec (-1 * 2 ^ (prec + n) + 1) (e - (prec + n)) = Mpf (-1) e.
Proof.
  intros Hp Hn.
  assert (P : 2 ≤ 2 ^ prec).
  { change 2 with (2 ^ 1) at 1. apply Z.pow_le_mono_r; lia. }
  assert (N : 2 ≤ 2 ^ n).
  { change 2 with (2 ^ 1) at 1. apply Z.pow_le_mono_r; lia. }
  assert (Nh : 2 ^ n = 2 * 2 ^ (n - 1)).
  { replace n with (n - 1 + 1) at 1 by lia. apply pow2_succ. lia. }
  assert (H : 0 < 2 ^ (n - 1)) by (apply pow2_pos; lia).
  assert (D : 2 ^ (prec + n) = 2 ^ prec * 2 ^ n) by (apply pow2_split; lia).
  assert (Dh : 2 ^ (prec + n) = 2 * 2 ^ (prec + n - 1)).
  { replace (prec + n) with (prec + n - 1 + 1) at 1 by lia.
    apply pow2_succ. lia. }
  assert (Dp : 2 ≤ 2 ^ (prec + n - 1)).
  { change 2 with (2 ^ 1) at 1. apply Z.pow_le_mono_r; lia. }
  assert (Hbc : bitcount (-1 * 2 ^ (prec + n) + 1) = prec + n).
  { apply bitcount_unique; [lia|]. rewrite Z.abs_neq by lia. lia. }
  unfold normalize. rewrite Hbc.
  replace (prec + n - prec) with n by lia.
  destruct (Z.ltb_spec 0 n); [|lia].
  rewrite Z.abs_neq by lia. rewrite Z.sgn_neg by lia.
  assert (Hup : round_half_even (- (-1 * 2 ^ (prec + n) + 1)) n = 2 ^ prec).
  { destruct (Z.eq_dec n 1) as [-> | Hn1].
    - replace (- (-1 * 2 ^ (prec + 1) + 1))
        with ((2 ^ prec - 1) * 2 ^ 1 + 2 ^ (1 - 1))
        by (rewrite D; change (2 ^ (1 - 1)) with 1; ring).
      rewrite round_half_even_tie_odd; [lia | lia |].
      rewrite Z.odd_sub, pow2_even by lia. reflexivity.
    - replace (- (-1 * 2 ^ (prec + n) + 1))
        with ((2 ^ prec - 1) * 2 ^ n + (2 ^ n - 1)) by (rewrite D; ring).
      assert (2 ≤ 2 ^ (n - 1)).
      { change 2 with (2 ^ 1) at 1. apply Z.pow_le_mono_r; lia. }
      rewrite round_half_even_up by lia. lia. }
  rewrite Hup.
  rewrite (trim_shift (-1) prec) by (reflexivity || lia). f_equal. lia.
Qed.

(** Lemma A: a number of precision [prec] absorbs every power of two
    at or below a quarter of its last place. *)
Lemma add_absorbed (prec m e j : Z) :
  1 ≤ prec → Z.odd m = true → bitcount m ≤ prec →
  j ≤ e + bitcount m - prec - 2 →
  mpf_add prec (Mpf m e) (Mpf 1 j) = Mpf m e.
Proof.
  intros Hp Ho Hb Hj.
  assert (Hnz : m ≠ 0) by (intros ->; discriminate).
  destruct (bitcount_bounds m Hnz) as (Hb1 & _).
  rewrite mpf_add_pow2_below by lia.
  remember (prec - bitcount m) as c eqn:Ec.
  remember (e - j - c) as n eqn:En.
  transitivity (normalize prec (m * 2 ^ (c + n) + 1) (e - (c + n))).
  { assert (E1 : e - j = c + n) by lia.
    assert (E2 : e - (c + n) = j) by lia.
    rewrite E1, E2. reflexivity. }
  destruct (Z.lt_trichotomy m (-1)) as [Hlt | [-> | Hgt]].
  - apply add_absorbed_neg; try assumption; lia.
  - change (bitcount (-1)) with 1 in *.
    replace (c + n) with (prec + (n - 1)) by lia.
    apply add_absorbed_minus_one; lia.
  - apply add_absorbed_pos; try assumption; lia.
Qed.

Lemma normalize_fits (prec m e : Z) :
  1 ≤ prec → fits prec (normalize prec m e).
Proof.
  intros Hp. unfold fits. destruct (Z.eq_dec m 0) as [-> | Hm].
  - rewrite normalize_zero. change (bitcount (mpf_man zero)) with 0. lia.
  - apply normalize_spec; assumption.
Qed.

(** Lemma B: adding a power of two above the number changes it. *)
Lemma add_changes (prec m e j : Z) :
  1 ≤ prec → Z.odd m = true → e + bitcount m ≤ j →
  mpf_add prec (Mpf m e) (Mpf 1 j) ≠ Mpf m e.
Proof.
  intros Hp Ho Hj.
  assert (Hnz : m ≠ 0) by (intros ->; discriminate).
  destruct (bitcount_bounds m Hnz) as (Hb1 & Hlo & Hhi).
  rewrite mpf_add_pow2_above by lia.
  assert (Hd : 2 ^ bitcount m ≤ 2 ^ (j - e)) by (apply Z.pow_le_mono_r; lia).
  assert (Hs : 0 < m + 2 ^ (j - e)) by lia.
  destruct (normalize_spec prec (m + 2 ^ (j - e)) e Hp ltac:(lia))
    as (Hsgn & Hexp & _ & _).
  rewrite (Z.sgn_pos (m + _)) in Hsgn by lia.
  intros E. rewrite E in Hsgn, Hexp. cbn [mpf_man mpf_exp] in Hsgn, Hexp.
  assert (Hfit : bitcount (m + 2 ^ (j - e)) ≤ prec) by lia.
  assert (Hodd : Z.odd (m + 2 ^ (j - e)) = true).
  { rewrite Z.odd_add, Ho, pow2_even by lia. reflexivity. }
  rewrite (normalize_fits_id prec _ e Hodd Hfit) in E.
  inversion E. lia.
Qed.

(** A sum at precision [prec] is a number of precision [prec]; a number
    with more bits is never the result. *)
Lemma add_never_wider (prec : Z) (x y : mpf) :
  1 ≤ prec → ¬ fits prec x → mpf_add prec x y ≠ x.
Proof.
  intros Hp Hx E. apply Hx. rewrite <- E. unfold mpf_add.
  apply normalize_fits. exact Hp.
Qed.

(** ** The loop of [ulp] *)

Lemma div_two_pow2 (prec j : Z) :
  1 ≤ prec → mpf_div_two prec (Mpf 1 j) = Mpf 1 (j - 1).
Proof.
  intros Hp. unfold mpf_div_two. cbn [mpf_man mpf_exp].
  apply normalize_fits_id; [reflexivity | change (bitcount 1) with 1; lia].
Qed.

Lemma mul_two_pow2 (prec j : Z) :
  1 ≤ prec → mpf_mul prec (Mpf 1 j) two = Mpf 1 (j + 1).
Proof.
  intros Hp. unfold mpf_mul. change two with (Mpf 1 1).
  cbn [mpf_man mpf_exp]. change (1 * 1) with 1.
  apply normalize_fits_id; [reflexivity | change (bitcount 1) with 1; lia].
Qed.

Lemma pow2_positive (k : Z) : mpf_ltb zero (Mpf 1 k) = true.
Proof.
  unfold mpf_ltb, mpf_cmp. cbn [mpf_man mpf_exp zero].
  rewrite Z.mul_0_l, Z.mul_1_l.
  assert (0 < 2 ^ (k - Z.min 0 k)) by (apply pow2_pos; lia).
  destruct (Z.compare_spec 0 (2 ^ (k - Z.min 0 k))); [lia | reflexivity | lia].
Qed.

(** From a power of two the loop walks down through the powers of two.
    It stops at the first one that [x] absorbs, or when the budget is
    spent; every power it passed changes [x]. *)
Lemma ulp_loop_pow2 (prec : Z) (x : mpf) :
  1 ≤ prec →
  ∀ (budget : nat) (j : Z),
  ∃ j', IEEEFormat.ulp_loop prec x budget (Mpf 1 j) = Mpf 1 j'
        ∧ j' ≤ j
        ∧ j - j' ≤ Z.of_nat budget
        ∧ (mpf_add prec x (Mpf 1 j') = x ∨ j - j' = Z.of_nat budget)
        ∧ ∀ i, j' < i ≤ j → mpf_add prec x (Mpf 1 i) ≠ x.
Proof.
  intros Hp. induction budget as [|budget IH]; intros j.
  - exists j. simpl. repeat split; lia.
  - cbn [IEEEFormat.ulp_loop].
    assert (Hnz : mpf_neb (Mpf 1 j) zero = true) by reflexivity.
    rewrite Hnz, andb_true_r.
    destruct (mpf_neb (mpf_add prec x (Mpf 1 j)) x) eqn:Ene.
    + apply mpf_neb_true in Ene. rewrite div_two_pow2 by exact Hp.
      destruct (IH (j - 1)) as (j' & Hr & Hle & Hcnt & Hstop & Hpassed).
      exists j'. split; [exact Hr|]. split; [lia|]. split; [lia|]. split.
      * destruct Hstop as [Hs | Hs]; [left; exact Hs | right; lia].
      * intros i Hi. destruct (Z.eq_dec i j) as [-> | Hne]; [exact Ene|].
        apply Hpassed. lia.
    + apply mpf_neb_false in Ene.
      exists j. split; [reflexivity|]. split; [lia|]. split; [lia|]. split.
      * left. exact Ene.
      * intros i Hi. lia.
Qed.

Lemma ulp_run `{MpLog} (fmt : IEEEFormat.t) (x : mpf) (s : mp_context) :
  IEEEFormat.ulp fmt x s =
  (Returns
     (mpf_mul (mp_prec s)
        (IEEEFormat.ulp_loop (IEEEFormat.prec fmt) (mpf_pos (mp_prec s) x)
           (Z.to_nat (Z.abs (IEEEFormat.min_exp fmt true)))
           (next_power (IEEEFormat.prec fmt) (mpf_pos (mp_prec s) x)))
        two), s).
Proof.
  destruct s as [p]. reflexivity.
Qed.

Lemma bitcount_abs (m : Z) : bitcount (Z.abs m) = bitcount m.
Proof. destruct m; reflexivity. Qed.

Lemma registered_format_range (fmt : IEEEFormat.t) :
  fmt ∈ ieee_formats_values →
  1 ≤ IEEEFormat.prec fmt
  ∧ IEEEFormat.prec fmt + 3 < Z.abs (IEEEFormat.min_exp fmt true).
Proof.
  intros Hin. unfold ieee_formats_values in Hin.
  repeat (apply elem_of_cons in Hin as [-> | Hin]);
    try (by apply elem_of_nil in Hin); vm_compute; split; congruence.
Qed.

(** Rounding an integer below [2 ^ prec] in magnitude keeps it. *)
Lemma mpf_int_exact (prec n : Z) :
  0 ≤ prec → Z.abs n < 2 ^ prec → mpf_int (normalize prec n 0) = n.
Proof.
  intros Hp Hn. destruct (Z.eq_dec n 0) as [-> | Hnz].
  - rewrite normalize_zero. reflexivity.
  - pose proof (bitcount_lt_pow2 n prec Hp Hn) as Hb.
    unfold normalize. destruct (Z.ltb_spec 0 (bitcount n - prec)); [lia|].
    destruct (trim_spec n 0 Hnz) as (Hv & _ & _).
    unfold mpf_int. rewrite Z.sub_0_r in Hv. symmetry. exact Hv.
Qed.

Lemma xint_add_exact (prec n : Z) :
  0 ≤ prec → Z.abs (n + 1) < 2 ^ prec →
  xint_add prec (Int n) 1 = Int (n + 1).
Proof.
  intros Hp Hn. unfold xint_add, mpf_add. cbn [mpf_man mpf_exp].
  rewrite Z.min_id, Z.sub_diag, Z.pow_0_r, !Z.mul_1_r.
  f_equal. apply mpf_int_exact; assumption.
Qed.

Lemma abs_positive (prec : Z) (x : mpf) :
  1 ≤ prec → mpf_man x ≠ 0 → 0 < mpf_man (mpf_abs prec x).
Proof.
  intros Hp Hnz.
  destruct (normalize_spec prec (Z.abs (mpf_man x)) (mpf_exp x) Hp
              ltac:(lia)) as (Hs & _).
  fold (mpf_abs prec x) in Hs.
  rewrite (Z.sgn_pos (Z.abs (mpf_man x))) in Hs by lia.
  apply Z.sgn_pos_iff. exact Hs.
Qed.

(** [next_power] of a nonzero number is a power of two, whatever the
    logarithm returned. *)
Lemma next_power_pow2 `{MpLog} (prec : Z) (x : mpf) :
  1 ≤ prec → mpf_man x ≠ 0 → ∃ k, next_power prec x = Mpf 1 k.
Proof.
  intros Hp Hnz. pose proof (abs_positive prec x Hp Hnz) as Ha.
  unfold next_power, mp_floor_log.
  destruct (Z.eqb_spec (mpf_man (mpf_abs prec x)) 0); [lia|].
  eexists. reflexivity.
Qed.

(** In the range where neither the logarithm nor the [+ 1] is rounded
    away, [next_power] is the power of two just above [|x|] or twice
    that. *)
Lemma next_power_in_range `{MpLog} (prec : Z) (x : mpf) :
  1 ≤ prec → mpf_wf x → mpf_man x ≠ 0 → fits prec x →
  log_in_range prec x →
  ∃ k, next_power prec x = Mpf 1 k
       ∧ mpf_exp x + bitcount (mpf_man x) ≤ k
         ≤ mpf_exp x + bitcount (mpf_man x) + 1.
Proof.
  intros Hp Hwf Hnz Hfit Hrange. destruct x as [m e].
  unfold fits, log_in_range in *. cbn [mpf_man mpf_exp] in *.
  assert (Ho : Z.odd m = true).
  { destruct Hwf as [[Hz _] | Ho]; [contradiction | exact Ho]. }
  pose proof (abs_positive prec (Mpf m e) Hp Hnz) as Ha.
  assert (Ea : mpf_abs prec (Mpf m e) = Mpf (Z.abs m) e).
  { unfold mpf_abs. cbn [mpf_man mpf_exp].
    apply normalize_fits_id; [rewrite odd_abs; exact Ho|].
    rewrite bitcount_abs. exact Hfit. }
  assert (Hbc : bitcount m = Z.log2 (Z.abs m) + 1).
  { unfold bitcount. destruct (Z.eqb_spec m 0); [contradiction | reflexivity]. }
  unfold next_power, mp_floor_log.
  destruct (Z.eqb_spec (mpf_man (mpf_abs prec (Mpf m e))) 0); [lia|].
  rewrite Ea in *. cbn [mpf_man mpf_exp] in Ha.
  pose proof (floor_log2_spec prec (Mpf (Z.abs m) e) Ha) as Hlog.
  cbn [mpf_man mpf_exp] in Hlog. specialize (Hlog ltac:(lia)).
  set (fl := floor_log2 prec (Mpf (Z.abs m) e)) in *.
  rewrite xint_add_exact by lia.
  exists (fl + 1). split; [reflexivity | lia].
Qed.

(** The value [ulp] returns for a nonzero number of the working
    precision: a power of two [2 ^ (k + 1)] that changes [x] when added
    at the precision of the format, and whose half [x] absorbs when [x]
    is a number of that precision. *)
Lemma ulp_analysis `{MpLog} (fmt : IEEEFormat.t) (x : mpf) (s : mp_context) :
  1 ≤ IEEEFormat.prec fmt →
  IEEEFormat.prec fmt + 3 < Z.abs (IEEEFormat.min_exp fmt true) →
  1 ≤ mp_prec s →
  mpf_wf x → mpf_man x ≠ 0 → fits (mp_prec s) x →
  (fits (IEEEFormat.prec fmt) x → log_in_range (IEEEFormat.prec fmt) x) →
  ∃ k, IEEEFormat.ulp fmt x s = (Returns (Mpf 1 (k + 1)), s)
       ∧ mpf_add (IEEEFormat.prec fmt) x (Mpf 1 (k + 1)) ≠ x
       ∧ (fits (IEEEFormat.prec fmt) x →
          mpf_add (IEEEFormat.prec fmt) x (Mpf 1 k) = x).
Proof.
  intros HP Hbudget Hp Hwf Hnz Hfit Hrange.
  destruct x as [m e]. cbn [mpf_man] in Hnz.
  assert (Ho : Z.odd m = true).
  { destruct Hwf as [[Hz _] | Ho]; [contradiction | exact Ho]. }
  unfold fits in Hfit. cbn [mpf_man] in Hfit.
  rewrite ulp_run.
  assert (Hpos : mpf_pos (mp_prec s) (Mpf m e) = Mpf m e).
  { unfold mpf_pos. apply normalize_fits_id; assumption. }
  rewrite Hpos.
  set (P := IEEEFormat.prec fmt) in *.
  set (B := Z.abs (IEEEFormat.min_exp fmt true)) in *.
  destruct (next_power_pow2 P (Mpf m e) HP Hnz) as [j0 Hnp].
  rewrite Hnp.
  destruct (ulp_loop_pow2 P (Mpf m e) HP (Z.to_nat B) j0)
    as (j' & Hr & Hle & Hcnt & Hstop & Hpassed).
  rewrite Hr, mul_two_pow2 by exact Hp.
  exists j'. split; [reflexivity|].
  destruct (Z.le_gt_cases (bitcount m) P) as [HfitP | HwideP].
  - destruct (next_power_in_range P (Mpf m e) HP Hwf Hnz HfitP
                (Hrange HfitP)) as (k0 & Hnp' & Hk0).
    rewrite Hnp in Hnp'. inversion Hnp'. subst k0.
    cbn [mpf_man mpf_exp] in Hk0.
    assert (Hchg : mpf_add P (Mpf m e) (Mpf 1 j0) ≠ Mpf m e)
      by (apply add_changes; [exact HP | exact Ho | lia]).
    assert (Habs : mpf_add P (Mpf m e) (Mpf 1 (e + bitcount m - P - 2))
                   = Mpf m e)
      by (apply add_absorbed; [exact HP | exact Ho | exact HfitP | lia]).
    rewrite Z2Nat.id in Hcnt, Hstop by lia.
    assert (Hlt : j' < j0).
    { destruct (Z.eq_dec j' j0) as [E|]; [|lia]. exfalso.
      destruct Hstop as [Hs | Hs]; [|lia]. rewrite E in Hs. exact (Hchg Hs). }
    assert (Hlow : e + bitcount m - P - 2 ≤ j').
    { destruct (Z.le_gt_cases (e + bitcount m - P - 2) j') as [|Hgt];
        [assumption|exfalso].
      apply (Hpassed (e + bitcount m - P - 2)); [lia | exact Habs]. }
    split.
    + apply Hpassed. lia.
    + intros _. destruct Hstop as [Hs | Hs]; [exact Hs | lia].
  - split.
    + apply add_never_wider; [exact HP|]. unfold fits. cbn [mpf_man]. lia.
    + intros Hf. unfold fits in Hf. cbn [mpf_man] in Hf. lia.
Qed.

Lemma ulp_zero `{MpLog} (fmt : IEEEFormat.t) (s : mp_context) :
  IEEEFormat.ulp fmt zero s = (Returns zero, s).
Proof.
  rewrite ulp_run.
  assert (Hz : mpf_pos (mp_prec s) zero = zero) by apply normalize_zero.
  rewrite Hz.
  assert (Hn : next_power (IEEEFormat.prec fmt) zero = zero).
  { unfold next_power, mpf_abs. cbn [mpf_man mpf_exp zero].
    change (Z.abs 0) with 0. rewrite normalize_zero. reflexivity. }
  rewrite Hn.
  assert (Hl : ∀ budget,
             IEEEFormat.ulp_loop (IEEEFormat.prec fmt) zero budget zero = zero).
  { intros [|budget]; [reflexivity|]. cbn [IEEEFormat.ulp_loop].
    rewrite andb_false_r. reflexivity. }
  rewrite Hl. unfold mpf_mul. cbn [mpf_man mpf_exp zero].
  rewrite Z.mul_0_l, normalize_zero. reflexivity.
Qed.

(** [ulp] of a nonzero number is a power of two, whatever the logarithm
    returned. *)
Lemma ulp_pow2 `{MpLog} (fmt : IEEEFormat.t) (x : mpf) (s : mp_context) :
  1 ≤ IEEEFormat.prec fmt → 1 ≤ mp_prec s →
  mpf_wf x → mpf_man x ≠ 0 → fits (mp_prec s) x →
  ∃ k, IEEEFormat.ulp fmt x s = (Returns (Mpf 1 k), s).
Proof.
  intros HP Hp Hwf Hnz Hfit. rewrite ulp_run.
  assert (Hpos : mpf_pos (mp_prec s) x = x).
  { destruct x as [m e]. unfold mpf_pos. cbn [mpf_man mpf_exp] in *.
    apply normalize_fits_id; [|exact Hfit].
    destruct Hwf as [[Hz _] | Ho]; [contradiction | exact Ho]. }
  rewrite Hpos.
  destruct (next_power_pow2 (IEEEFormat.prec fmt) x HP Hnz) as [j0 Hnp].
  rewrite Hnp.
  destruct (ulp_loop_pow2 (IEEEFormat.prec fmt) x HP
              (Z.to_nat (Z.abs (IEEEFormat.min_exp fmt true))) j0)
    as (j' & Hr & _).
  rewrite Hr, mul_two_pow2 by exact Hp.
  exists (j' + 1). reflexivity.
Qed.

(** Every finite number of a registered format, normal or denormal, has
    its exponent in the range where the logarithm is not rounded. *)
Lemma format_values_log_in_range (fmt : IEEEFormat.t) (x : mpf) :
  fmt ∈ ieee_formats_values →
  IEEEFormat.min_exp fmt true ≤ mpf_exp x + bitcount (mpf_man x) - 1
    ≤ IEEEFormat.max_exp fmt →
  log_in_range (IEEEFormat.prec fmt) x.
Proof.
  intros Hin. unfold log_in_range.
  set (K := mpf_exp x + bitcount (mpf_man x)).
  unfold ieee_formats_values in Hin.
  repeat (apply elem_of_cons in Hin as [-> | Hin]);
    try (by apply elem_of_nil in Hin);
    match goal with
    | |- IEEEFormat.min_exp ?f true ≤ _ ≤ IEEEFormat.max_exp ?f → _ =>
        let lo := eval vm_compute in (IEEEFormat.min_exp f true) in
        let hi := eval vm_compute in (IEEEFormat.max_exp f) in
        let pw := eval vm_compute in (2 ^ IEEEFormat.prec f) in
        change (lo ≤ K - 1 ≤ hi → Z.abs K + 1 < pw)
    end; lia.
Qed.

(** The logarithm as mpmath returns it at a power of two: the exact
    floor, rounded to the working precision. *)
Definition rounded_log : MpLog.
Proof.
  refine {| floor_log2 := λ prec x,
              mpf_int (normalize prec (mpf_exp x + Z.log2 (mpf_man x)) 0) |}.
  intros prec x _ Hk.
  destruct (Z.lt_ge_cases prec 0) as [Hneg | Hp].
  - rewrite Z.pow_neg_r in Hk by exact Hneg. lia.
  - rewrite mpf_int_exact by assumption. lia.
Defined.

(** Beyond that range the logarithm and the [+ 1] are rounded away.  At
    5 bits, [next_power(2 ^ 33)] is [2 ^ 32], below its argument; for
    the single format, [ulp(2 ^ (2 ^ 30 + 63))] starts from
    [2 ^ (2 ^ 30)], which the sum absorbs at once, and the value
    returned is absorbed as well. *)
Lemma ulp_beyond_log_range :
  next_power (H := rounded_log) 5 (Mpf 1 33) = Mpf 1 32
  ∧ IEEEFormat.ulp (H := rounded_log) ieee_float (Mpf 1 (2 ^ 30 + 63))
      (MpContext 53)
    = (Returns (Mpf 1 (2 ^ 30 + 1)), MpContext 53)
  ∧ mpf_add 24 (Mpf 1 (2 ^ 30 + 63)) (Mpf 1 (2 ^ 30 + 1))
    = Mpf 1 (2 ^ 30 + 63).
Proof. repeat split; vm_compute; reflexivity. Qed.

(** ** The unit of least precision *)

(** A 25-bit number, held at the default precision of 53 bits. *)
Definition wide_number : mpf := Mpf (2 ^ 24 + 1) 0.

(** C6 (fails as stated): [2 ^ 24 + 1] is finite and nonzero, but it is
    not a number of the single format.  No sum computed at 24 bits
    equals it, the loop of [ulp] runs all its 149 halvings, and neither
    half nor a quarter of the result is absorbed. *)
Lemma ulp_of_wide_number :
  IEEEFormat.ulp (H := exact_log) ieee_float wide_number (MpContext 53)
  = (Returns (mp_power2 (-123)), MpContext 53)
  ∧ mpf_add 24 wide_number (mpf_div_two 24 (mp_power2 (-123))) ≠ wide_number
  ∧ mpf_add 24 wide_number
      (mpf_div_two 24 (mpf_div_two 24 (mp_power2 (-123)))) ≠ wide_number.
Proof. repeat split; vm_compute; congruence. Qed.

(** C6, amended.  For every format of the registry and every nonzero
    number [x] of the working precision whose exponent is in the range
    where [floor(log(x, 2)) + 1] is not rounded at the precision of the
    format (every finite number of the format is), [ulp(x)] is positive
    and [x + ulp(x)] differs from [x] when the sum is rounded to the
    precision of the format; when [x] is a number of that precision,
    [x + ulp(x)/2] equals [x]. *)
Theorem ulp_minimal_increment `{MpLog} (fmt : IEEEFormat.t) (x : mpf)
    (s : mp_context) :
  fmt ∈ ieee_formats_values →
  1 ≤ mp_prec s →
  mpf_wf x → mpf_man x ≠ 0 → fits (mp_prec s) x →
  log_in_range (IEEEFormat.prec fmt) x →
  ∃ u, IEEEFormat.ulp fmt x s = (Returns u, s)
       ∧ mpf_ltb zero u = true
       ∧ mpf_add (IEEEFormat.prec fmt) x u ≠ x
       ∧ (fits (IEEEFormat.prec fmt) x →
          mpf_add (IEEEFormat.prec fmt) x
            (mpf_div_two (IEEEFormat.prec fmt) u) = x).
Proof.
  intros Hin Hp Hwf Hnz Hfit Hrange.
  destruct (registered_format_range fmt Hin) as [HP HB].
  destruct (ulp_analysis fmt x s HP HB Hp Hwf Hnz Hfit (λ _, Hrange))
    as (k & Hrun & Hchg & Habs).
  exists (Mpf 1 (k + 1)). split; [exact Hrun|]. split; [|split].
  - apply pow2_positive.
  - exact Hchg.
  - intros Hf. rewrite div_two_pow2 by exact HP.
    replace (k + 1 - 1) with k by lia. exact (Habs Hf).
Qed.

Lemma ulp_minimal_increment_witness :
  ∃ u, IEEEFormat.ulp (H := exact_log) ieee_double one (MpContext 53)
       = (Returns u, MpContext 53)
       ∧ mpf_ltb zero u = true
       ∧ mpf_add 53 one u ≠ one
       ∧ mpf_add 53 one (mpf_div_two 53 u) = one.
Proof.
  assert (Hin : ieee_double ∈ ieee_formats_values) by in_list.
  assert (Hp : 1 ≤ mp_prec (MpContext 53)) by (simpl; lia).
  assert (Hwf : mpf_wf one) by (right; reflexivity).
  assert (Hnz : mpf_man one ≠ 0) by (simpl; lia).
  assert (Hfit : fits (mp_prec (MpContext 53)) one)
    by (unfold fits; vm_compute; congruence).
  assert (Hrange : log_in_range (IEEEFormat.prec ieee_double) one)
    by (unfold log_in_range; vm_compute; reflexivity).
  destruct (ulp_minimal_increment (H := exact_log) ieee_double one
              (MpContext 53) Hin Hp Hwf Hnz Hfit Hrange)
    as (u & Hrun & Hpos & Hchg & Habs).
  exists u. split; [exact Hrun|]. split; [exact Hpos|].
  split; [exact Hchg|]. apply Habs. unfold fits. vm_compute. congruence.
Defined.

(** C7, the failing input: [ulp(0)] is zero, which is not positive. *)
Lemma ulp_of_zero_not_positive :
  IEEEFormat.ulp (H := exact_log) ieee_double zero (MpContext 53)
  = (Returns zero, MpContext 53)
  ∧ mpf_ltb zero zero = false.
Proof. split; vm_compute; reflexivity. Qed.

(** C7.  The code does not return a positive value at zero.  For every
    format of the registry and every number [x] of the working
    precision, [ulp(x)] is positive when [x] is not zero (whatever the
    logarithm returned), but at zero [log] gives [-inf], [next_power]
    gives zero, and [ulp] returns zero. *)
Theorem ulp_positive_off_zero `{MpLog} (fmt : IEEEFormat.t) (x : mpf)
    (s : mp_context) :
  fmt ∈ ieee_formats_values →
  1 ≤ mp_prec s →
  mpf_wf x → fits (mp_prec s) x →
  ∃ u, IEEEFormat.ulp fmt x s = (Returns u, s)
       ∧ (mpf_man x ≠ 0 → mpf_ltb zero u = true)
       ∧ (mpf_man x = 0 → u = zero).
Proof.
  intros Hin Hp Hwf Hfit.
  destruct (registered_format_range fmt Hin) as [HP HB].
  destruct (Z.eq_dec (mpf_man x) 0) as [Hz | Hnz].
  - assert (Ex : x = zero).
    { destruct x as [m e]. cbn [mpf_man] in Hz. subst m.
      destruct Hwf as [[_ He] | Ho]; [|discriminate].
      cbn [mpf_exp] in He. subst e. reflexivity. }
    subst x. exists zero. split; [apply ulp_zero|].
    split; [intros Hne; contradiction | reflexivity].
  - destruct (ulp_pow2 fmt x s HP Hp Hwf Hnz Hfit) as (k & Hrun).
    exists (Mpf 1 k). split; [exact Hrun|].
    split; [intros _; apply pow2_positive | intros Hz; contradiction].
Qed.

Lemma ulp_positive_off_zero_witness :
  ∃ u, IEEEFormat.ulp (H := exact_log) ieee_float (Mpf (-3) 2) (MpContext 53)
       = (Returns u, MpContext 53)
       ∧ mpf_ltb zero u = true.
Proof.
  assert (Hin : ieee_float ∈ ieee_formats_values) by in_list.
  assert (Hp : 1 ≤ mp_prec (MpContext 53)) by (simpl; lia).
  assert (Hwf : mpf_wf (Mpf (-3) 2)) by (right; reflexivity).
  assert (Hfit : fits (mp_prec (MpContext 53)) (Mpf (-3) 2))
    by (unfold fits; vm_compute; congruence).
  destruct (ulp_positive_off_zero (H := exact_log) ieee_float (Mpf (-3) 2)
              (MpContext 53) Hin Hp Hwf Hfit)
    as (u & Hrun & Hpos & _).
  exists u. split; [exact Hrun|]. apply Hpos. simpl. lia.
Defined.

(** * Further properties *)

(** ** The coarse search at its edges *)

Lemma coarse_loop_unbounded (func g xstep : callable) (compare : predicate)
    (f l step : mpf → mpf) (cmp : mpf → mpf → bool) (s : mp_context) :
  (∀ x, func x s = (Returns (f x), s)) →
  (∀ x, g x s = (Returns (l x), s)) →
  (∀ x, xstep x s = (Returns (step x), s)) →
  (∀ a b, compare a b s = (Returns (cmp a b), s)) →
  (∀ x, cmp (f x) (l x) = false) →
  ∀ (fuel : nat) (nsteps : Z) (x : mpf),
    coarse_loop fuel func g None xstep compare None nsteps x s
    = (OutOfFuel, s).
Proof.
  intros Hf Hg Hstep Hcmp Hnever.
  induction fuel as [|fuel IH]; intros nsteps x; [reflexivity|].
  cbn [coarse_loop differs_from below_bound andb].
  rewrite (run_bind_returns _ _ _ _ _ (Hf x)).
  rewrite (run_bind_returns _ _ _ _ _ (Hg x)).
  rewrite (run_bind_returns _ _ _ _ _ (Hcmp _ _)).
  rewrite Hnever. cbn [negb].
  rewrite (run_bind_returns _ _ _ _ _ (Hstep x)).
  apply IH.
Qed.

(** X1.  Without a sentinel and without a bound (the defaults of [find_fp]),
    a search whose comparison never holds does not end: no loop budget
    of the model is enough. *)
Theorem find_fp_unbounded_search (func xstep : callable) (limit : limit_arg)
    (compare : predicate) (f l step : mpf → mpf) (cmp : mpf → mpf → bool)
    (s : mp_context) (xstart : mpf) (fuel : nat) :
  (∀ x, func x s = (Returns (f x), s)) →
  (∀ x, xstep x s = (Returns (step x), s)) →
  (∀ a b, compare a b s = (Returns (cmp a b), s)) →
  limit_computes s limit l →
  (∀ x, cmp (f x) (l x) = false) →
  Limits.find_fp fuel func limit xstart None xstep compare None s
  = (OutOfFuel, s)
  ∧ FpLimits.find_fp_fast fuel func limit xstart None xstep compare None s
    = (OutOfFuel, s).
Proof.
  intros Hf Hstep Hcmp Hl Hnever.
  destruct (as_callable_runs limit l s Hl) as (g & Hg & Hgl).
  split.
  - unfold Limits.find_fp. rewrite (run_bind_returns _ _ _ _ _ Hg).
    exact (coarse_loop_unbounded func g xstep compare f l step cmp s
             Hf Hgl Hstep Hcmp Hnever fuel 0 xstart).
  - unfold FpLimits.find_fp_fast. rewrite (run_bind_returns _ _ _ _ _ Hg).
    exact (coarse_loop_unbounded func g xstep compare f l step cmp s
             Hf Hgl Hstep Hcmp Hnever fuel 0 xstart).
Qed.

Lemma find_fp_unbounded_search_witness :
  Limits.find_fp 5000%nat (pure (λ _, one)) (LimitValue zero) one None
    (pure (mpf_div_two 53)) (pure2 mpf_eqb) None (MpContext 53)
  = (OutOfFuel, MpContext 53).
Proof.
  refine (proj1 (find_fp_unbounded_search
                   (pure (λ _, one)) (pure (mpf_div_two 53)) (LimitValue zero)
                   (pure2 mpf_eqb) (λ _, one) (λ _, zero) (mpf_div_two 53)
                   mpf_eqb (MpContext 53) one 5000 _ _ _ _ _)).
  - intros x. reflexivity.
  - intros x. reflexivity.
  - intros a b. reflexivity.
  - intros x. reflexivity.
  - intros x. reflexivity.
Defined.

(** X2.  When the start value is the sentinel, or the bound is zero, the
    search returns [(0, xstart)] without calling [func], [limit] or
    [compare]: it returns even when every one of them would raise. *)
Theorem find_fp_skips_calls (fuel : nat) (func xstep : callable)
    (limit : limit_arg) (compare : predicate) (x : mpf)
    (xstop : option mpf) (max_steps : option Z) (s : mp_context) :
  Limits.find_fp (S fuel) func limit x (Some x) xstep compare max_steps s
  = (Returns (0, x), s)
  ∧ Limits.find_fp (S fuel) func limit x xstop xstep compare (Some 0) s
    = (Returns (0, x), s)
  ∧ FpLimits.find_fp_fast (S fuel) func limit x (Some x) xstep compare
      max_steps s = (Returns (0, x), s)
  ∧ FpLimits.find_fp_fast (S fuel) func limit x xstop xstep compare
      (Some 0) s = (Returns (0, x), s).
Proof.
  assert (Hsame : differs_from x (Some x) = false)
    by (apply differs_from_false; reflexivity).
  assert (Hzero : below_bound 0 (Some 0) = false) by reflexivity.
  destruct (as_callable_total limit s) as (g & Hg & _).
  unfold Limits.find_fp, FpLimits.find_fp_fast.
  rewrite !(run_bind_returns _ _ _ _ _ Hg).
  cbn [coarse_loop]. rewrite Hsame, Hzero, andb_false_r. cbn [andb].
  repeat split; reflexivity.
Qed.

(** ** The one-phase searches with their default range *)

Lemma registered_min_exp (fmt : IEEEFormat.t) :
  fmt ∈ ieee_formats_values → IEEEFormat.min_exp fmt true < 0.
Proof.
  intros Hin. unfold ieee_formats_values in Hin.
  repeat (apply elem_of_cons in Hin as [-> | Hin]);
    try (by apply elem_of_nil in Hin); vm_compute; reflexivity.
Qed.

Lemma iterate_halve (p : Z) (j : Z) (k : nat) :
  1 ≤ p → iterate (mpf_div_two p) (Mpf 1 j) k = Mpf 1 (j - Z.of_nat k).
Proof.
  intros Hp. induction k as [|k IH].
  - simpl. f_equal. lia.
  - change (iterate (mpf_div_two p) (Mpf 1 j) (S k))
      with (mpf_div_two p (iterate (mpf_div_two p) (Mpf 1 j) k)).
    rewrite IH, div_two_pow2 by exact Hp. f_equal. lia.
Qed.

Lemma iterate_double (p : Z) (j : Z) (k : nat) :
  1 ≤ p →
  iterate (λ x, mpf_mul p x two) (Mpf 1 j) k = Mpf 1 (j + Z.of_nat k).
Proof.
  intros Hp. induction k as [|k IH].
  - simpl. f_equal. lia.
  - change (iterate (λ x, mpf_mul p x two) (Mpf 1 j) (S k))
      with (mpf_mul p (iterate (λ x, mpf_mul p x two) (Mpf 1 j) k) two).
    rewrite IH, mul_two_pow2 by exact Hp. f_equal. lia.
Qed.

Lemma registered_lookup (p : Z) (fmt : IEEEFormat.t) :
  ieee_formats !! p = Some fmt →
  1 ≤ p
  ∧ IEEEFormat.min_exp fmt true < 0
  ∧ IEEEFormat.min_value fmt true
    = Mpf 1 (- Z.abs (IEEEFormat.min_exp fmt true)).
Proof.
  intros Hfmt. apply ieee_formats_spec in Hfmt as [Hin Hp].
  destruct (registered_format_range fmt Hin) as [HP _].
  pose proof (registered_min_exp fmt Hin) as Hneg.
  split; [lia|]. split; [exact Hneg|].
  unfold IEEEFormat.min_value, mp_power2. f_equal. lia.
Qed.

(** X3.  With the default range, a pair that never agrees makes the forward
    search run from one down to the smallest value of the format: it
    returns exactly [(abs(min_exp()), min_value())]. *)
Theorem find_limit_never_agreeing `{MpLog} (fuel : nat) (func : callable)
    (limit : limit_arg) (f l : mpf → mpf) (nulp : Z) (prec : option Z)
    (s : mp_context) (fmt : IEEEFormat.t) :
  ieee_formats !! prec_or prec (mp_prec s) = Some fmt →
  (∀ x, func x (MpContext (prec_or prec (mp_prec s)))
        = (Returns (f x), MpContext (prec_or prec (mp_prec s)))) →
  limit_computes (MpContext (prec_or prec (mp_prec s))) limit l →
  (∀ x, mpf_eqb (f x) (l x) = false) →
  Z.abs (IEEEFormat.min_exp fmt true) < Z.of_nat fuel →
  Limits.find_limit fuel func limit None None nulp prec s
  = (Returns (Z.abs (IEEEFormat.min_exp fmt true),
              IEEEFormat.min_value fmt true), s).
Proof.
  intros Hfmt Hf Hl Hnever Hfuel.
  destruct (registered_lookup _ _ Hfmt) as (Hp & Hneg & Hmin).
  rewrite find_limit_run, Hfmt. cbn [default].
  set (p := prec_or prec (mp_prec s)) in *.
  set (B := Z.abs (IEEEFormat.min_exp fmt true)) in *.
  destruct (as_callable_runs limit l (MpContext p) Hl) as (g & Hg & Hgl).
  unfold Limits.find_fp. rewrite (run_bind_returns _ _ _ _ _ Hg).
  pose proof (coarse_loop_runs func (λ x, mp_div_two x) operator_eq
                f l (mpf_div_two p) mpf_eqb (MpContext p) one
                (Some (IEEEFormat.min_value fmt true)) (Some B)
                Hf ltac:(intros x; reflexivity)
                ltac:(intros a b; reflexivity) g Hgl
                (Z.to_nat B) fuel 0%nat) as R.
  cbn [Nat.add] in R. change (Z.of_nat 0) with 0 in R.
  change (iterate (mpf_div_two p) one 0) with one in R.
  rewrite R.
  - cbn [fst]. change one with (Mpf 1 0). rewrite iterate_halve by exact Hp.
    rewrite Z2Nat.id by lia. rewrite Hmin. repeat f_equal.
  - lia.
  - intros j Hj [Hs | [Hs | Hs]].
    + change one with (Mpf 1 0) in Hs. rewrite iterate_halve, Hmin in Hs
        by exact Hp. inversion Hs. lia.
    + inversion Hs. lia.
    + rewrite Hnever in Hs. discriminate.
  - right. left. f_equal. lia.
Qed.

Lemma find_limit_never_agreeing_witness :
  Limits.find_limit (H := exact_log) 2000 (pure (λ _, one))
    (LimitValue zero) None None 0 None (MpContext 53)
  = (Returns (1074, mp_power2 (-1074)), MpContext 53).
Proof.
  refine (find_limit_never_agreeing (H := exact_log) 2000 (pure (λ _, one))
            (LimitValue zero) (λ _, one) (λ _, zero) 0 None (MpContext 53)
            ieee_double _ _ _ _ _).
  - rewrite ieee_formats_lookup. reflexivity.
  - intros x. reflexivity.
  - intros x. reflexivity.
  - intros x. reflexivity.
  - vm_compute. reflexivity.
Defined.

Lemma reverse_report (search : M (Z * mpf)) (bound n : Z) (v : mpf)
    (ctx : mp_context) :
  search ctx = (Returns (n, v), ctx) →
  ('(steps, value) ← search;
   half ← mp_div_two value;
   mret (bound - steps + 1, half)) ctx
  = (Returns (bound - n + 1, mpf_div_two (mp_prec ctx) v), ctx).
Proof. intros E. rewrite (run_bind_returns _ _ _ _ _ E). reflexivity. Qed.

(** X4.  With the default range, the reverse search starts at the smallest
    value of the format.  When [func] and [limit] differ there, it
    returns at once a count of [abs(min_exp()) + 1], one more than the
    bound, with half the smallest value; when they are equal everywhere
    it runs up to one and returns count 1 with one half. *)
Theorem find_limit_reverse_extremes `{MpLog} (fuel : nat) (func : callable)
    (limit : limit_arg) (f l : mpf → mpf) (nulp : Z) (prec : option Z)
    (s : mp_context) (fmt : IEEEFormat.t) :
  ieee_formats !! prec_or prec (mp_prec s) = Some fmt →
  (∀ x, func x (MpContext (prec_or prec (mp_prec s)))
        = (Returns (f x), MpContext (prec_or prec (mp_prec s)))) →
  limit_computes (MpContext (prec_or prec (mp_prec s))) limit l →
  Z.abs (IEEEFormat.min_exp fmt true) < Z.of_nat fuel →
  (f (IEEEFormat.min_value fmt true) ≠ l (IEEEFormat.min_value fmt true) →
   Limits.find_limit_reverse fuel func limit None None nulp prec s
   = (Returns (Z.abs (IEEEFormat.min_exp fmt true) + 1,
               Mpf 1 (IEEEFormat.min_exp fmt true - 1)), s))
  ∧ ((∀ x, f x = l x) →
     Limits.find_limit_reverse fuel func limit None None nulp prec s
     = (Returns (1, Mpf 1 (-1)), s)).
Proof.
  intros Hfmt Hf Hl Hfuel.
  destruct (registered_lookup _ _ Hfmt) as (Hp & Hneg & Hmin).
  rewrite find_limit_reverse_run, Hfmt. cbn [default].
  set (p := prec_or prec (mp_prec s)) in *.
  set (B := Z.abs (IEEEFormat.min_exp fmt true)) in *.
  destruct (as_callable_runs limit l (MpContext p) Hl) as (g & Hg & Hgl).
  pose proof (coarse_loop_runs func (λ x, mp_mul x two) operator_ne
                f l (λ x, mpf_mul p x two) mpf_neb (MpContext p)
                (IEEEFormat.min_value fmt true)
                (Some one) (Some B)
                Hf ltac:(intros x; reflexivity)
                ltac:(intros a b; reflexivity) g Hgl) as R.
  split.
  - intros Hdiff. specialize (R 0%nat fuel 0%nat).
    cbn [Nat.add] in R. change (Z.of_nat 0) with 0 in R.
    change (iterate _ (IEEEFormat.min_value fmt true) 0)
      with (IEEEFormat.min_value fmt true) in R.
    assert (E : Limits.find_fp fuel func limit
                  (IEEEFormat.min_value fmt true) (Some one)
                  (λ x, mp_mul x two) operator_ne (Some B) (MpContext p)
                = (Returns (0, IEEEFormat.min_value fmt true), MpContext p)).
    { unfold Limits.find_fp. rewrite (run_bind_returns _ _ _ _ _ Hg).
      apply R.
      - lia.
      - intros j Hj. lia.
      - right. right. apply mpf_neb_true. exact Hdiff. }
    rewrite (reverse_report _ B _ _ _ E). cbn [fst mp_prec].
    rewrite Hmin, div_two_pow2 by exact Hp.
    repeat f_equal; lia.
  - intros Hsame. specialize (R (Z.to_nat B) fuel 0%nat).
    cbn [Nat.add] in R. change (Z.of_nat 0) with 0 in R.
    change (iterate _ (IEEEFormat.min_value fmt true) 0)
      with (IEEEFormat.min_value fmt true) in R.
    assert (E : Limits.find_fp fuel func limit
                  (IEEEFormat.min_value fmt true) (Some one)
                  (λ x, mp_mul x two) operator_ne (Some B) (MpContext p)
                = (Returns (B, one), MpContext p)).
    { unfold Limits.find_fp. rewrite (run_bind_returns _ _ _ _ _ Hg).
      rewrite R.
      - rewrite Hmin, iterate_double by exact Hp. rewrite Z2Nat.id by lia.
        replace (- B + B) with 0 by lia. reflexivity.
      - lia.
      - intros j Hj [Hs | [Hs | Hs]].
        + rewrite Hmin, iterate_double in Hs by exact Hp.
          inversion Hs. lia.
        + inversion Hs. lia.
        + apply mpf_neb_true in Hs. apply Hs. apply Hsame.
      - left. rewrite Hmin, iterate_double by exact Hp.
        rewrite Z2Nat.id by lia. replace (- B + B) with 0 by lia.
        reflexivity. }
    rewrite (reverse_report _ B _ _ _ E). cbn [fst mp_prec].
    change one with (Mpf 1 0). rewrite div_two_pow2 by exact Hp.
    repeat f_equal; lia.
Qed.

Lemma find_limit_reverse_extremes_witness :
  Limits.find_limit_reverse (H := exact_log) 200 (pure (λ _, one))
    (LimitValue zero) None None 0 (Some 24) (MpContext 53)
  = (Returns (150, Mpf 1 (-150)), MpContext 53)
  ∧ Limits.find_limit_reverse (H := exact_log) 200 (pure (λ _, one))
      (LimitValue one) None None 0 (Some 24) (MpContext 53)
    = (Returns (1, Mpf 1 (-1)), MpContext 53).
Proof.
  assert (Hfmt : ieee_formats !! prec_or (Some 24) (mp_prec (MpContext 53))
                 = Some ieee_float)
    by (rewrite ieee_formats_lookup; reflexivity).
  assert (Hfuel : Z.abs (IEEEFormat.min_exp ieee_float true) < Z.of_nat 200)
    by (vm_compute; reflexivity).
  split.
  - refine (proj1 (find_limit_reverse_extremes (H := exact_log) 200
                     (pure (λ _, one)) (LimitValue zero)
                     (λ _, one) (λ _, zero) 0 (Some 24) (MpContext 53)
                     ieee_float Hfmt _ _ Hfuel) _).
    + intros x. reflexivity.
    + intros x. reflexivity.
    + discriminate.
  - refine (proj2 (find_limit_reverse_extremes (H := exact_log) 200
                     (pure (λ _, one)) (LimitValue one)
                     (λ _, one) (λ _, one) 0 (Some 24) (MpContext 53)
                     ieee_float Hfmt _ _ Hfuel) _).
    + intros x. reflexivity.
    + intros x. reflexivity.
    + intros x. reflexivity.
Defined.

(** ** The bisection *)

(** The comparison and the upper edge that [bisect_limit] settles on
    before its loop. *)
Definition bisect_compare `{MpLog} (fmt : IEEEFormat.t) (nulp : Z) : predicate :=
  if negb (nulp =? 0)
  then λ fx lx : mpf, d ← mp_sub fx lx; a ← mp_abs d;
                      u ← IEEEFormat.ulp fmt fx; mret (mpf_gtb a u)
  else operator_eq.

Definition bisect_upper (s : mp_context) (lower_limit : mpf)
    (upper_limit : option mpf) : mpf :=
  default (mpf_mul (mp_prec s) two lower_limit) upper_limit.

Lemma bisect_limit_run `{MpLog} (fuel : nat) (func : callable)
    (limit : limit_arg) (lower_limit : mpf) (upper_limit : option mpf)
    (nulp : Z) (prec : option Z) (s : mp_context) :
  FpLimits.bisect_limit fuel func limit lower_limit upper_limit nulp prec s =
  match ieee_formats !! prec_or prec (mp_prec s) with
  | Some fmt =>
      (fst (FpLimits.bisect_loop fuel func limit (bisect_compare fmt nulp)
              lower_limit None lower_limit
              (bisect_upper s lower_limit upper_limit) 0
              (MpContext (prec_or prec (mp_prec s)))), s)
  | None => (Raises (KeyError (prec_or prec (mp_prec s))), s)
  end.
Proof.
  unfold FpLimits.bisect_limit.
  rewrite run_bind, ieee_format_run.
  destruct (ieee_formats !! _) as [fmt|]; [|reflexivity].
  cbv beta. rewrite run_bind.
  assert (E : match upper_limit with
              | Some u => mret u
              | None => mp_mul two lower_limit
              end s = (Returns (bisect_upper s lower_limit upper_limit), s)).
  { destruct upper_limit; reflexivity. }
  rewrite E. cbv beta zeta. rewrite run_bind, get_prec_run.
  apply workprec_run.
Qed.





Lemma bisect_loop_invariant (func g : callable) (compare : predicate)
    (f l : mpf → mpf) (cmp : mpf → mpf → bool) (ctx : mp_context)
    (lower0 : mpf) :
  (∀ y, func y ctx = (Returns (f y), ctx)) →
  (∀ y, g y ctx = (Returns (l y), ctx)) →
  (∀ a b, compare a b ctx = (Returns (cmp a b), ctx)) →
  ∀ (fuel : nat) (x : mpf) (last_x : option mpf) (lo up : mpf) (n : Z)
    (r : Z) (b : mpf) (ctx' : mp_context),
    lo = lower0 ∨ cmp (f lo) (l lo) = true →
    FpLimits.bisect_loop fuel func (LimitCallable g) compare x last_x lo up n
      ctx = (Returns (r, b), ctx') →
    (b = lower0 ∨ cmp (f b) (l b) = true) ∧ n ≤ r.
Proof.
  intros Hf Hg Hc.
  induction fuel as [|fuel IH]; intros x last_x lo up n r b ctx' Hinv Hrun.
  - discriminate.
  - rewrite (bisect_loop_turn _ func g _ f l cmp ctx _ _ _ _ _ Hf Hg Hc)
      in Hrun.
    destruct (differs_from x last_x && mpf_neb lo up).
    + cbv zeta in Hrun.
      destruct (cmp (f x) (l x)) eqn:Ex.
      * apply IH in Hrun; [|right; exact Ex].
        destruct Hrun as [Hb Hn]. split; [exact Hb | lia].
      * apply IH in Hrun; [|exact Hinv].
        destruct Hrun as [Hb Hn]. split; [exact Hb | lia].
    + inversion Hrun; subst. split; [exact Hinv | lia].
Qed.

(** X7.  In exact mode, whatever [bisect_limit] returns as the boundary is
    the lower edge it was given or a point at which [func] and [limit]
    agree: the lower edge never moves onto a point of disagreement. *)
Theorem bisect_limit_boundary_agrees `{MpLog} (fuel : nat) (func g : callable)
    (f l : mpf → mpf) (lower_limit : mpf) (upper_limit : option mpf)
    (prec : option Z) (s : mp_context) (n : Z) (b : mpf) :
  (∀ x, func x (MpContext (prec_or prec (mp_prec s)))
        = (Returns (f x), MpContext (prec_or prec (mp_prec s)))) →
  (∀ x, g x (MpContext (prec_or prec (mp_prec s)))
        = (Returns (l x), MpContext (prec_or prec (mp_prec s)))) →
  fst (FpLimits.bisect_limit fuel func (LimitCallable g) lower_limit
         upper_limit 0 prec s) = Returns (n, b) →
  (b = lower_limit ∨ f b = l b) ∧ 0 ≤ n.
Proof.
  intros Hf Hg Hrun. rewrite bisect_limit_run in Hrun.
  destruct (ieee_formats !! _) as [fmt|]; [|discriminate].
  cbn [fst] in Hrun.
  set (ctx := MpContext (prec_or prec (mp_prec s))) in *.
  assert (Hc : ∀ a b, bisect_compare fmt 0 a b ctx
                      = (Returns (mpf_eqb a b), ctx)) by reflexivity.
  destruct (FpLimits.bisect_loop _ _ _ _ _ _ _ _ _ _) as [r ctx'] eqn:E.
  cbn [fst] in Hrun. subst r.
  destruct (bisect_loop_invariant func g _ f l mpf_eqb ctx lower_limit
              Hf Hg Hc _ _ _ _ _ _ _ _ _ ltac:(left; reflexivity) E)
    as [[Hb | Hb] Hn].
  - split; [left; exact Hb | exact Hn].
  - split; [right; apply mpf_eqb_eq; exact Hb | exact Hn].
Qed.

Lemma bisect_limit_boundary_agrees_witness :
  (Mpf 1 (-24) = Mpf 1 (-24)
   ∨ mpf_add 24 (Mpf 1 (-24)) one = one) ∧ 0 ≤ 25.
Proof.
  refine (bisect_limit_boundary_agrees (H := exact_log) 200
            (λ x, mp_add x one) (pure (λ _, one))
            (λ x, mpf_add 24 x one) (λ _, one)
            (Mpf 1 (-24)) (Some (Mpf 1 (-23))) (Some 24) (MpContext 53)
            25 (Mpf 1 (-24)) _ _ _).
  - intros x. reflexivity.
  - intros x. reflexivity.
  - vm_compute. reflexivity.
Defined.

(** ** Scoped precision of the helpers *)

(** X8.  [bisect_limit], [ulp], [dist] and the [with workfloat(...)] block
    leave the working precision as they found it, on return and on
    error, whatever the callables and the block do to it. *)
Theorem helpers_restore_precision `{MpLog} {A} (fuel : nat) (func : callable)
    (limit : limit_arg) (lower_limit : mpf) (upper_limit : option mpf)
    (nulp : Z) (prec : option Z) (fmt : IEEEFormat.t) (x f1 f2 : mpf)
    (bytes_or_bits : Z) (body : M A) (s : mp_context) :
  snd (FpLimits.bisect_limit fuel func limit lower_limit upper_limit
         nulp prec s) = s
  ∧ snd (IEEEFormat.ulp fmt x s) = s
  ∧ snd (dist fuel fmt f1 f2 s) = s
  ∧ snd (workfloat bytes_or_bits body s) = s.
Proof.
  split; [|split; [|split]].
  - rewrite bisect_limit_run. destruct (ieee_formats !! _); reflexivity.
  - rewrite ulp_run. reflexivity.
  - unfold dist. apply workprec_restores.
  - rewrite workfloat_run.
    repeat case_decide; try apply workprec_restores. reflexivity.
Qed.

(** ** The format lookup without an explicit precision *)

(** X9.  [ieee_format()] and [ieee_format(0)] are the same call: both look up
    the working precision.  The format returned has that precision, and
    when the working precision is none of 24, 53, 63, 113 the call
    raises [KeyError] with the working precision as key. *)
Theorem ieee_format_default (s : mp_context) :
  ieee_format (Some 0) s = ieee_format None s
  ∧ (∀ fmt, fst (ieee_format None s) = Returns fmt →
            IEEEFormat.prec fmt = mp_prec s ∧ fmt ∈ ieee_formats_values)
  ∧ (mp_prec s ∉ known_precisions →
     ieee_format None s = (Raises (KeyError (mp_prec s)), s)).
Proof.
  split; [reflexivity|]. rewrite ieee_format_run. cbn [prec_or]. split.
  - intros fmt Hrun.
    destruct (ieee_formats !! mp_prec s) as [fmt'|] eqn:E; [|discriminate].
    cbn [fst] in Hrun. inversion Hrun; subst fmt'.
    apply ieee_formats_spec in E as [Hin Hp]. split; assumption.
  - intros Hnot.
    destruct (known_precision_lookup (mp_prec s)) as [_ Hno].
    rewrite (Hno Hnot). reflexivity.
Qed.

Lemma ieee_format_default_witness :
  ieee_format None (MpContext 100) = (Raises (KeyError 100), MpContext 100)
  ∧ IEEEFormat.prec ieee_quad = mp_prec (MpContext 113).
Proof.
  destruct (ieee_format_default (MpContext 100)) as (_ & _ & Hbad).
  destruct (ieee_format_default (MpContext 113)) as (_ & Hgood & _).
  split.
  - apply Hbad. unfold known_precisions. cbn [mp_prec]. intros Hin.
    repeat (apply elem_of_cons in Hin as [Hin | Hin]); try lia.
    by apply elem_of_nil in Hin.
  - apply (Hgood ieee_quad). vm_compute. reflexivity.
Defined.

(** ** The distance in ulps *)

Lemma dist_run `{MpLog} (fuel : nat) (self : IEEEFormat.t) (f1 f2 : mpf)
    (s : mp_context) :
  dist fuel self f1 f2 s =
  (fst (dist_loop fuel self
          (mpf_pos (IEEEFormat.prec self) (py_min f1 f2))
          (mpf_pos (IEEEFormat.prec self) (py_max f1 f2)) 0
          (MpContext (IEEEFormat.prec self))), s).
Proof. unfold dist. rewrite workprec_run. reflexivity. Qed.

(** The value of [ulp(x)] at working precision [p]. *)
Definition ulp_value `{MpLog} (self : IEEEFormat.t) (p : Z) (x : mpf) : mpf :=
  mpf_mul p
    (IEEEFormat.ulp_loop (IEEEFormat.prec self) (mpf_pos p x)
       (Z.to_nat (Z.abs (IEEEFormat.min_exp self true)))
       (next_power (IEEEFormat.prec self) (mpf_pos p x)))
    two.

Lemma ulp_returns `{MpLog} (self : IEEEFormat.t) (x : mpf) (s : mp_context) :
  IEEEFormat.ulp self x s = (Returns (ulp_value self (mp_prec s) x), s).
Proof. apply ulp_run. Qed.

Lemma dist_loop_turn `{MpLog} (fuel : nat) (self : IEEEFormat.t)
    (lo hi : mpf) (d : Z) (ctx : mp_context) :
  dist_loop (S fuel) self lo hi d ctx =
  if mpf_neb lo hi
  then dist_loop fuel self
         (mpf_add (mp_prec ctx) lo (ulp_value self (mp_prec ctx) lo))
         hi (d + 1) ctx
  else (Returns d, ctx).
Proof.
  cbn [dist_loop]. destruct (mpf_neb lo hi); [|reflexivity].
  rewrite (run_bind_returns _ _ _ _ _ (ulp_returns self lo ctx)).
  reflexivity.
Qed.

Lemma dist_loop_counts `{MpLog} (self : IEEEFormat.t) (hi : mpf)
    (ctx : mp_context) :
  ∀ (fuel : nat) (lo : mpf) (d r : Z) (ctx' : mp_context),
    dist_loop fuel self lo hi d ctx = (Returns r, ctx') → d ≤ r.
Proof.
  induction fuel as [|fuel IH]; intros lo d r ctx' Hrun; [discriminate|].
  rewrite dist_loop_turn in Hrun. destruct (mpf_neb lo hi).
  - apply IH in Hrun. lia.
  - inversion Hrun. lia.
Qed.

Lemma py_min_same (a : mpf) : py_min a a = a.
Proof. unfold py_min. destruct (mpf_ltb a a); reflexivity. Qed.

Lemma py_max_same (a : mpf) : py_max a a = a.
Proof. unfold py_max. destruct (mpf_gtb a a); reflexivity. Qed.

(** X10.  [dist(a, a)] is zero; more generally the distance is zero exactly
    when the smaller and the larger argument round to the same number
    of the format. *)
Theorem dist_zero_iff `{MpLog} (fuel : nat) (self : IEEEFormat.t)
    (f1 f2 : mpf) (s : mp_context) :
  dist (S fuel) self f1 f1 s = (Returns 0, s)
  ∧ (fst (dist (S fuel) self f1 f2 s) = Returns 0
     ↔ mpf_pos (IEEEFormat.prec self) (py_min f1 f2)
       = mpf_pos (IEEEFormat.prec self) (py_max f1 f2)).
Proof.
  split.
  - rewrite dist_run, py_min_same, py_max_same, dist_loop_turn.
    assert (E : ∀ x, mpf_neb x x = false)
      by (intros x; apply mpf_neb_false; reflexivity).
    rewrite E. reflexivity.
  - rewrite dist_run, dist_loop_turn. cbn [fst].
    destruct (mpf_neb _ _) eqn:E.
    + apply mpf_neb_true in E. split; [|intros E'; contradiction].
      intros Hrun.
      destruct (dist_loop fuel self _ _ (0 + 1) _) as [r ctx'] eqn:Hloop.
      cbn [fst] in Hrun. subst r.
      apply dist_loop_counts in Hloop. lia.
    + apply mpf_neb_false in E. split; [intros _; exact E | reflexivity].
Qed.

Lemma mpf_cmp_antisym (a b : mpf) : mpf_cmp b a = CompOpp (mpf_cmp a b).
Proof.
  unfold mpf_cmp. rewrite (Z.min_comm (mpf_exp b) (mpf_exp a)).
  apply Z.compare_antisym.
Qed.

(** On normalised numbers, comparing equal is being the same number. *)
Lemma mpf_cmp_eq_wf (a b : mpf) :
  mpf_wf a → mpf_wf b → mpf_cmp a b = Eq → a = b.
Proof.
  intros Ha Hb Hc. unfold mpf_cmp in Hc. apply Z.compare_eq in Hc.
  destruct a as [ma ea], b as [mb eb]. cbn [mpf_man mpf_exp] in *.
  set (e := Z.min ea eb) in *.
  assert (Pa : 0 < 2 ^ (ea - e)) by (apply pow2_pos; lia).
  assert (Pb : 0 < 2 ^ (eb - e)) by (apply pow2_pos; lia).
  destruct Ha as [[Za Ea] | Oa], Hb as [[Zb Eb] | Ob];
    cbn [mpf_man mpf_exp] in *.
  - subst. reflexivity.
  - subst ma. exfalso. assert (mb = 0) by nia. subst mb. discriminate.
  - subst mb. exfalso. assert (ma = 0) by nia. subst ma. discriminate.
  - destruct (odd_times_pow2_unique ma mb (ea - e) (eb - e) Oa Ob
                ltac:(lia) ltac:(lia) Hc) as [-> E].
    f_equal. lia.
Qed.

Lemma py_min_comm (a b : mpf) :
  mpf_wf a → mpf_wf b → py_min a b = py_min b a.
Proof.
  intros Ha Hb. unfold py_min, mpf_ltb.
  rewrite (mpf_cmp_antisym a b).
  destruct (mpf_cmp a b) eqn:E; cbn [CompOpp]; try reflexivity.
  apply mpf_cmp_eq_wf; assumption.
Qed.

Lemma py_max_comm (a b : mpf) :
  mpf_wf a → mpf_wf b → py_max a b = py_max b a.
Proof.
  intros Ha Hb. unfold py_max, mpf_gtb, mpf_ltb.
  rewrite (mpf_cmp_antisym a b).
  destruct (mpf_cmp a b) eqn:E; cbn [CompOpp]; try reflexivity.
  apply mpf_cmp_eq_wf; assumption.
Qed.

(** X11.  [dist(a, b)] and [dist(b, a)] are the same computation. *)
Theorem dist_symmetric `{MpLog} (fuel : nat) (self : IEEEFormat.t)
    (f1 f2 : mpf) (s : mp_context) :
  mpf_wf f1 → mpf_wf f2 →
  dist fuel self f1 f2 s = dist fuel self f2 f1 s.
Proof.
  intros H1 H2. rewrite !dist_run.
  rewrite (py_min_comm f1 f2 H1 H2), (py_max_comm f1 f2 H1 H2).
  reflexivity.
Qed.

Lemma dist_symmetric_witness :
  dist (H := exact_log) 20 ieee_float (Mpf (-1) 0) (Mpf (-(2 ^ 24 - 5)) (-24))
    (MpContext 53)
  = dist (H := exact_log) 20 ieee_float (Mpf (-(2 ^ 24 - 5)) (-24)) (Mpf (-1) 0)
      (MpContext 53).
Proof.
  apply (dist_symmetric (H := exact_log)); right; reflexivity.
Defined.

Lemma ulp_value_zero `{MpLog} (self : IEEEFormat.t) (p : Z) :
  ulp_value self p zero = zero.
Proof.
  pose proof (ulp_returns self zero (MpContext p)) as R.
  rewrite ulp_zero in R. inversion R. reflexivity.
Qed.

Lemma dist_loop_stuck_at_zero `{MpLog} (self : IEEEFormat.t) (hi : mpf)
    (ctx : mp_context) :
  hi ≠ zero →
  ∀ (fuel : nat) (d : Z), dist_loop fuel self zero hi d ctx = (OutOfFuel, ctx).
Proof.
  intros Hhi. induction fuel as [|fuel IH]; intros d; [reflexivity|].
  rewrite dist_loop_turn.
  assert (E : mpf_neb zero hi = true) by (apply mpf_neb_true; congruence).
  rewrite E, ulp_value_zero.
  assert (Z0 : mpf_add (mp_prec ctx) zero zero = zero).
  { unfold mpf_add. cbn [mpf_man mpf_exp zero].
    rewrite !Z.mul_0_l. apply normalize_zero. }
  rewrite Z0. apply IH.
Qed.

Lemma positive_above_zero (b : mpf) :
  0 < mpf_man b → mpf_ltb b zero = false ∧ mpf_ltb zero b = true.
Proof.
  intros Hb. unfold mpf_ltb, mpf_cmp. cbn [mpf_man mpf_exp zero].
  rewrite !Z.mul_0_l.
  assert (0 < 2 ^ (mpf_exp b - Z.min (mpf_exp b) 0)) by (apply pow2_pos; lia).
  assert (0 < 2 ^ (mpf_exp b - Z.min 0 (mpf_exp b))) by (apply pow2_pos; lia).
  split.
  - assert (E : (mpf_man b * 2 ^ (mpf_exp b - Z.min (mpf_exp b) 0) ?= 0) = Gt)
      by (apply Z.compare_gt_iff; nia).
    rewrite E. reflexivity.
  - assert (E : (0 ?= mpf_man b * 2 ^ (mpf_exp b - Z.min 0 (mpf_exp b))) = Lt)
      by (apply Z.compare_lt_iff; nia).
    rewrite E. reflexivity.
Qed.

(** X12.  The distance from zero to a positive number is never reached:
    [ulp(0)] is zero, so [lo] stays at zero and the loop of [dist] does
    not end, in either order of the arguments. *)
Theorem dist_from_zero_diverges `{MpLog} (fuel : nat) (self : IEEEFormat.t)
    (b : mpf) (s : mp_context) :
  self ∈ ieee_formats_values →
  0 < mpf_man b →
  dist fuel self zero b s = (OutOfFuel, s)
  ∧ dist fuel self b zero s = (OutOfFuel, s).
Proof.
  intros Hin Hb.
  destruct (registered_format_range self Hin) as [HP _].
  destruct (positive_above_zero b Hb) as [Hlt Hgt].
  assert (Hmin1 : py_min zero b = zero) by (unfold py_min; rewrite Hlt; reflexivity).
  assert (Hmax1 : py_max zero b = b)
    by (unfold py_max, mpf_gtb; rewrite Hgt; reflexivity).
  assert (Hmin2 : py_min b zero = zero)
    by (unfold py_min; rewrite Hgt; reflexivity).
  assert (Hmax2 : py_max b zero = b)
    by (unfold py_max, mpf_gtb; rewrite Hlt; reflexivity).
  assert (Hhi : mpf_pos (IEEEFormat.prec self) b ≠ zero).
  { intros E.
    destruct (normalize_spec (IEEEFormat.prec self) (mpf_man b) (mpf_exp b)
                HP ltac:(lia)) as (Hs & _).
    fold (mpf_pos (IEEEFormat.prec self) b) in Hs.
    rewrite E, (Z.sgn_pos (mpf_man b)) in Hs by lia. discriminate. }
  assert (Hz : mpf_pos (IEEEFormat.prec self) zero = zero)
    by apply normalize_zero.
  split.
  - rewrite dist_run, Hmin1, Hmax1, Hz.
    rewrite (dist_loop_stuck_at_zero self _ _ Hhi). reflexivity.
  - rewrite dist_run, Hmin2, Hmax2, Hz.
    rewrite (dist_loop_stuck_at_zero self _ _ Hhi). reflexivity.
Qed.

Lemma dist_from_zero_diverges_witness :
  dist (H := exact_log) 1000 ieee_double zero one (MpContext 53)
  = (OutOfFuel, MpContext 53).
Proof.
  refine (proj1 (dist_from_zero_diverges (H := exact_log) 1000
                   ieee_double one (MpContext 53) _ _)).
  - in_list.
  - simpl. lia.
Defined.

(** ** The value of [ulp] *)

Lemma round_half_even_tie_even (q n : Z) :
  1 ≤ n → Z.odd q = false →
  round_half_even (q * 2 ^ n + 2 ^ (n - 1)) n = q.
Proof.
  intros Hn Hq. unfold round_half_even.
  assert (0 < 2 ^ (n - 1)) by (apply pow2_pos; lia).
  assert (Hp : 2 ^ n = 2 * 2 ^ (n - 1)).
  { replace n with (n - 1 + 1) at 1 by lia. apply pow2_succ. lia. }
  assert (Hd : (q * 2 ^ n + 2 ^ (n - 1)) / 2 ^ n = q).
  { symmetry. apply (Z.div_unique _ _ q (2 ^ (n - 1))); [left; lia | lia]. }
  assert (Hm : (q * 2 ^ n + 2 ^ (n - 1)) mod 2 ^ n = 2 ^ (n - 1)).
  { symmetry. apply (Z.mod_unique _ _ q (2 ^ (n - 1))); [left; lia | lia]. }
  rewrite Hd, Hm, Hq, Z.eqb_refl, andb_false_r, orb_false_r.
  destruct (Z.ltb_spec (2 ^ (n - 1)) (2 ^ (n - 1))); [lia | reflexivity].
Qed.

(** When the mantissa needs no rounding, [normalize] keeps the value. *)
Lemma normalize_exact_value (prec S e' m e : Z) :
  S ≠ 0 → bitcount S ≤ prec → normalize prec S e' = Mpf m e →
  S = m * 2 ^ (e - e') ∧ e' ≤ e.
Proof.
  intros HS Hb E. unfold normalize in E.
  destruct (Z.ltb_spec 0 (bitcount S - prec)); [lia|].
  destruct (trim_spec S e' HS) as (Hv & He & _).
  rewrite E in Hv, He. cbn [mpf_man mpf_exp] in Hv, He. split; assumption.
Qed.

(** Every power of two from the last place of [x] upwards changes [x]. *)
Lemma add_changes_near (prec m e j : Z) :
  1 ≤ prec → Z.odd m = true → bitcount m ≤ prec →
  e + bitcount m - prec ≤ j →
  mpf_add prec (Mpf m e) (Mpf 1 j) ≠ Mpf m e.
Proof.
  intros Hp Ho Hb Hj.
  assert (Hnz : m ≠ 0) by (intros ->; discriminate).
  destruct (bitcount_bounds m Hnz) as (Hb1 & Hlo & Hhi).
  destruct (Z.lt_ge_cases j e) as [Hlt | Hge].
  - rewrite mpf_add_pow2_below by lia.
    set (d := e - j) in *.
    assert (D : 2 ≤ 2 ^ d).
    { change 2 with (2 ^ 1) at 1. apply Z.pow_le_mono_r; lia. }
    assert (Hodd : Z.odd (m * 2 ^ d + 1) = true).
    { rewrite Z.odd_add, Z.odd_mul, pow2_even by lia.
      rewrite andb_false_r. reflexivity. }
    assert (HS : m * 2 ^ d + 1 ≠ 0) by (intros E; rewrite E in Hodd; discriminate).
    assert (Hfit : bitcount (m * 2 ^ d + 1) ≤ prec).
    { apply bitcount_lt_pow2; [lia|].
      assert (2 ^ (bitcount m + d) ≤ 2 ^ prec)
        by (apply Z.pow_le_mono_r; lia).
      rewrite pow2_split in H by lia. nia. }
    intros E.
    destruct (normalize_exact_value _ _ _ _ _ HS Hfit E) as [Hv _].
    fold d in Hv. lia.
  - rewrite mpf_add_pow2_above by lia.
    assert (D : 0 < 2 ^ (j - e)) by (apply pow2_pos; lia).
    destruct (Z.eq_dec (m + 2 ^ (j - e)) 0) as [Hz | HS].
    + rewrite Hz, normalize_zero. intros E. inversion E. lia.
    + intros E.
      destruct (normalize_spec prec (m + 2 ^ (j - e)) e Hp HS)
        as (_ & Hexp & _ & _).
      rewrite E in Hexp. cbn [mpf_exp] in Hexp.
      assert (Hfit : bitcount (m + 2 ^ (j - e)) ≤ prec) by lia.
      destruct (normalize_exact_value _ _ _ _ _ HS Hfit E) as [Hv _].
      rewrite Z.sub_diag, Z.pow_0_r in Hv. lia.
Qed.

(** Half of the last place is absorbed when the full mantissa is even
    and [x] is not minus a power of two. *)
Lemma add_half_absorbed (prec m e c : Z) :
  Z.odd m = true → m ≠ -1 → bitcount m + c = prec → 1 ≤ c →
  mpf_add prec (Mpf m e) (Mpf 1 (e - c - 1)) = Mpf m e.
Proof.
  intros Ho Hm1 Hc Hc1.
  assert (Hnz : m ≠ 0) by (intros ->; discriminate).
  destruct (bitcount_bounds m Hnz) as (Hb1 & Hlo & Hhi).
  set (b := bitcount m) in *.
  rewrite mpf_add_pow2_below by lia.
  replace (e - (e - c - 1)) with (c + 1) by lia.
  assert (X : 0 < 2 ^ (b - 1)) by (apply pow2_pos; lia).
  assert (Xb : 2 ^ b = 2 * 2 ^ (b - 1)).
  { replace b with (b - 1 + 1) at 1 by lia. apply pow2_succ. lia. }
  assert (C : 2 ≤ 2 ^ c).
  { change 2 with (2 ^ 1) at 1. apply Z.pow_le_mono_r; lia. }
  assert (C1 : 2 ^ (c + 1) = 2 * 2 ^ c) by (apply pow2_succ; lia).
  assert (PP : 2 ^ prec = 2 ^ b * 2 ^ c).
  { rewrite <- Hc. apply pow2_split; lia. }
  assert (PP1 : 2 ^ (prec + 1) = 2 * 2 ^ prec) by (apply pow2_succ; lia).
  assert (Heven : Z.odd (m * 2 ^ c) = false).
  { rewrite Z.odd_mul, pow2_even by lia. apply andb_false_r. }
  unfold normalize.
  destruct (Z.lt_trichotomy m 0) as [Hneg | [-> | Hpos]]; [| discriminate |].
  - assert (Hne : - m ≠ 2 ^ (b - 1)).
    { intros E. assert (Hb2 : 2 ≤ b).
      { destruct (Z.eq_dec b 1) as [E1|]; [|lia].
        rewrite E1 in E. change (2 ^ (1 - 1)) with 1 in E. lia. }
      assert (Hodd : Z.odd (- m) = true) by (rewrite Z.odd_opp; exact Ho).
      rewrite E, pow2_even in Hodd by lia. discriminate. }
    rewrite Z.abs_neq in Hlo, Hhi by lia.
    assert (Hbc : bitcount (m * 2 ^ (c + 1) + 1) = prec + 1).
    { apply bitcount_unique; [lia|].
      replace (prec + 1 - 1) with prec by lia.
      rewrite Z.abs_neq by nia. rewrite PP1, PP, C1, Xb. nia. }
    rewrite Hbc. replace (prec + 1 - prec) with 1 by lia.
    cbn [Z.ltb Z.compare].
    rewrite Z.abs_neq by nia. rewrite Z.sgn_neg by nia.
    replace (- (m * 2 ^ (c + 1) + 1))
      with ((- m * 2 ^ c - 1) * 2 ^ 1 + 2 ^ (1 - 1))
      by (rewrite C1; change (2 ^ 1) with 2; change (2 ^ (1 - 1)) with 1; ring).
    rewrite round_half_even_tie_odd; [|lia|].
    + replace (-1 * (- m * 2 ^ c - 1 + 1)) with (m * 2 ^ c) by ring.
      rewrite trim_shift by (assumption || lia). f_equal. lia.
    + rewrite Z.odd_sub. replace (- m * 2 ^ c) with (- (m * 2 ^ c)) by ring.
      rewrite Z.odd_opp, Heven. reflexivity.
  - rewrite Z.abs_eq in Hlo, Hhi by lia.
    assert (Hbc : bitcount (m * 2 ^ (c + 1) + 1) = prec + 1).
    { apply bitcount_unique; [lia|].
      replace (prec + 1 - 1) with prec by lia.
      rewrite Z.abs_eq by nia. rewrite PP1, PP, C1, Xb. nia. }
    rewrite Hbc. replace (prec + 1 - prec) with 1 by lia.
    cbn [Z.ltb Z.compare].
    rewrite Z.abs_eq by nia. rewrite Z.sgn_pos by nia. rewrite Z.mul_1_l.
    replace (m * 2 ^ (c + 1) + 1)
      with ((m * 2 ^ c) * 2 ^ 1 + 2 ^ (1 - 1))
      by (rewrite C1; change (2 ^ 1) with 2; change (2 ^ (1 - 1)) with 1; ring).
    rewrite round_half_even_tie_even by (lia || assumption).
    rewrite trim_shift by (assumption || lia). f_equal. lia.
Qed.

(** Half of the last place changes a number whose mantissa uses all the
    bits of the precision (a tie that rounds away from it). *)
Lemma add_half_changes_full (prec m e : Z) :
  1 ≤ prec → Z.odd m = true → bitcount m = prec →
  mpf_add prec (Mpf m e) (Mpf 1 (e - 1)) ≠ Mpf m e.
Proof.
  intros Hp Ho Hb.
  assert (Hnz : m ≠ 0) by (intros ->; discriminate).
  destruct (bitcount_bounds m Hnz) as (_ & Hlo & Hhi).
  rewrite Hb in Hlo, Hhi.
  rewrite mpf_add_pow2_below by lia.
  replace (e - (e - 1)) with 1 by lia. change (2 ^ 1) with 2.
  assert (HS : m * 2 + 1 ≠ 0) by lia.
  assert (PP1 : 2 ^ (prec + 1) = 2 * 2 ^ prec) by (apply pow2_succ; lia).
  intros E.
  destruct (Z.le_gt_cases (bitcount (m * 2 + 1)) prec) as [Hfit | Hwide].
  - destruct (normalize_exact_value _ _ _ _ _ HS Hfit E) as [Hv _].
    replace (e - (e - 1)) with 1 in Hv by lia. change (2 ^ 1) with 2 in Hv.
    lia.
  - assert (Hup : bitcount (m * 2 + 1) ≤ prec + 1)
      by (apply bitcount_lt_pow2; lia).
    unfold normalize in E.
    replace (bitcount (m * 2 + 1) - prec) with 1 in E by lia.
    cbn [Z.ltb Z.compare] in E.
    replace (e - 1 + 1) with e in E by lia.
    assert (Hval : ∀ t, t ≠ 0 → trim t e = Mpf m e → t = m).
    { intros t Ht Et. destruct (trim_spec t e Ht) as (Hv & _ & _).
      rewrite Et in Hv. cbn [mpf_man mpf_exp] in Hv.
      rewrite Z.sub_diag, Z.pow_0_r in Hv. lia. }
    destruct (Z.lt_trichotomy m 0) as [Hneg | [-> | Hpos]]; [| lia |].
    + assert (Hm1 : m ≠ -1).
      { intros ->. change (bitcount (-1 * 2 + 1)) with 1 in Hwide. lia. }
      rewrite Z.abs_neq, Z.sgn_neg in E by lia.
      replace (- (m * 2 + 1)) with ((- m - 1) * 2 ^ 1 + 2 ^ (1 - 1)) in E
        by (change (2 ^ 1) with 2; change (2 ^ (1 - 1)) with 1; ring).
      rewrite round_half_even_tie_even in E; [|lia|].
      * apply Hval in E; lia.
      * rewrite Z.odd_sub, Z.odd_opp, Ho. reflexivity.
    + rewrite Z.abs_eq, Z.sgn_pos, Z.mul_1_l in E by lia.
      replace (m * 2 + 1) with (m * 2 ^ 1 + 2 ^ (1 - 1)) in E
        by (change (2 ^ 1) with 2; change (2 ^ (1 - 1)) with 1; ring).
      rewrite round_half_even_tie_odd in E by (lia || assumption).
      apply Hval in E; lia.
Qed.

(** Minus a power of two has closer neighbours towards zero: half of its
    last place changes it. *)
Lemma add_half_changes_minus_one (prec e : Z) :
  1 ≤ prec →
  mpf_add prec (Mpf (-1) e) (Mpf 1 (e - prec)) ≠ Mpf (-1) e.
Proof.
  intros Hp. rewrite mpf_add_pow2_below by lia.
  replace (e - (e - prec)) with prec by lia.
  assert (P2 : 2 ≤ 2 ^ prec).
  { change 2 with (2 ^ 1) at 1. apply Z.pow_le_mono_r; lia. }
  assert (HS : -1 * 2 ^ prec + 1 ≠ 0) by lia.
  assert (Hfit : bitcount (-1 * 2 ^ prec + 1) ≤ prec)
    by (apply bitcount_lt_pow2; lia).
  intros E.
  destruct (normalize_exact_value _ _ _ _ _ HS Hfit E) as [Hv _].
  replace (e - (e - prec)) with prec in Hv by lia. lia.
Qed.

(** X13.  [ulp] in closed form.  For a nonzero number [x] of the format
    whose exponent is in the range where [floor(log(x, 2)) + 1] is not
    rounded, with [2 ^ q] the distance between neighbouring numbers of
    the format in the binade of [x]: [ulp(x)] is [2 ^ q] when the
    mantissa of [x] has bits to spare and [x] is not minus a power of
    two, and half of it, [2 ^ (q - 1)], otherwise. *)
Theorem ulp_closed_form `{MpLog} (fmt : IEEEFormat.t) (x : mpf)
    (s : mp_context) :
  fmt ∈ ieee_formats_values →
  1 ≤ mp_prec s →
  mpf_wf x → mpf_man x ≠ 0 → fits (mp_prec s) x →
  fits (IEEEFormat.prec fmt) x →
  log_in_range (IEEEFormat.prec fmt) x →
  let q := mpf_exp x + bitcount (mpf_man x) - IEEEFormat.prec fmt in
  IEEEFormat.ulp fmt x s =
  (Returns
     (Mpf 1 (if decide (bitcount (mpf_man x) < IEEEFormat.prec fmt
                        ∧ mpf_man x ≠ -1)
             then q else q - 1)), s).
Proof.
  intros Hin Hp Hwf Hnz Hfit HfitP Hrange q.
  destruct (registered_format_range fmt Hin) as [HP HB].
  destruct (ulp_analysis fmt x s HP HB Hp Hwf Hnz Hfit (λ _, Hrange))
    as (k & Hrun & Hchg & Habs).
  specialize (Habs HfitP). rewrite Hrun. do 3 f_equal.
  destruct x as [m e]. cbn [mpf_man mpf_exp] in *.
  unfold fits in HfitP. cbn [mpf_man] in HfitP.
  assert (Ho : Z.odd m = true).
  { destruct Hwf as [[Hz _] | Ho]; [contradiction | exact Ho]. }
  set (P := IEEEFormat.prec fmt) in *.
  assert (Hk1 : k < q).
  { destruct (Z.lt_ge_cases k q) as [|Hge]; [assumption|exfalso].
    apply (add_changes_near P m e k HP Ho HfitP); [unfold q in Hge; lia|].
    exact Habs. }
  assert (Hk2 : q - 2 ≤ k).
  { destruct (Z.le_gt_cases (q - 2) k) as [|Hgt]; [assumption|exfalso].
    apply Hchg. apply add_absorbed; try assumption. unfold q in Hgt. lia. }
  case_decide as Hcase.
  - destruct Hcase as [Hlt Hm1].
    destruct (Z.eq_dec k (q - 2)) as [Ek|]; [exfalso|lia].
    apply Hchg. rewrite Ek.
    replace (q - 2 + 1) with (e - (P - bitcount m) - 1) by (unfold q; lia).
    apply add_half_absorbed; try assumption; lia.
  - destruct (Z.eq_dec k (q - 1)) as [Ek|]; [exfalso|lia].
    rewrite Ek in Habs.
    destruct (Z.eq_dec m (-1)) as [-> | Hm1].
    + change (bitcount (-1)) with 1 in *.
      apply (add_half_changes_minus_one P e HP).
      replace (e - P) with (q - 1) by (unfold q; lia). exact Habs.
    + assert (Hfull : bitcount m = P) by lia.
      apply (add_half_changes_full P m e HP Ho Hfull).
      replace (e - 1) with (q - 1) by (unfold q; lia). exact Habs.
Qed.

Lemma ulp_closed_form_witness :
  IEEEFormat.ulp (H := exact_log) ieee_float (Mpf 3 0) (MpContext 53)
  = (Returns (Mpf 1 (-22)), MpContext 53)
  ∧ IEEEFormat.ulp (H := exact_log) ieee_float (Mpf (-1) 0) (MpContext 53)
    = (Returns (Mpf 1 (-24)), MpContext 53).
Proof.
  assert (Hin : ieee_float ∈ ieee_formats_values) by in_list.
  assert (Hp : 1 ≤ mp_prec (MpContext 53)) by (simpl; lia).
  split.
  - refine (ulp_closed_form (H := exact_log) ieee_float (Mpf 3 0)
              (MpContext 53) Hin Hp _ _ _ _ _).
    + right; reflexivity.
    + simpl; lia.
    + unfold fits; vm_compute; congruence.
    + unfold fits; vm_compute; congruence.
    + unfold log_in_range; vm_compute; reflexivity.
  - refine (ulp_closed_form (H := exact_log) ieee_float (Mpf (-1) 0)
              (MpContext 53) Hin Hp _ _ _ _ _).
    + right; reflexivity.
    + simpl; lia.
    + unfold fits; vm_compute; congruence.
    + unfold fits; vm_compute; congruence.
    + unfold log_in_range; vm_compute; reflexivity.
Defined.

(** X14.  For a number with more significant bits than the format has, the
    loop of [ulp] spends its whole budget: the result is [next_power(x)]
    halved [abs(min_exp()) - 1] times, whatever the size of [x]'s own
    last place. *)
Theorem ulp_of_wider_number `{MpLog} (fmt : IEEEFormat.t) (x : mpf)
    (s : mp_context) :
  fmt ∈ ieee_formats_values →
  1 ≤ mp_prec s →
  mpf_wf x → fits (mp_prec s) x →
  ¬ fits (IEEEFormat.prec fmt) x →
  ∃ k, next_power (IEEEFormat.prec fmt) x = Mpf 1 k
       ∧ IEEEFormat.ulp fmt x s
         = (Returns (Mpf 1 (k + 1 - Z.abs (IEEEFormat.min_exp fmt true))), s).
Proof.
  intros Hin Hp Hwf Hfit Hwide.
  destruct (registered_format_range fmt Hin) as [HP HB].
  assert (Hnz : mpf_man x ≠ 0).
  { intros E. apply Hwide. unfold fits. rewrite E.
    change (bitcount 0) with 0. lia. }
  destruct (next_power_pow2 (IEEEFormat.prec fmt) x HP Hnz) as [k0 Hnp].
  exists k0. split; [exact Hnp|].
  rewrite ulp_run.
  assert (Hpos : mpf_pos (mp_prec s) x = x).
  { destruct x as [m e]. unfold mpf_pos. cbn [mpf_man mpf_exp] in *.
    apply normalize_fits_id; [|exact Hfit].
    destruct Hwf as [[Hz _] | Ho]; [contradiction | exact Ho]. }
  rewrite Hpos, Hnp.
  destruct (ulp_loop_pow2 (IEEEFormat.prec fmt) x HP
              (Z.to_nat (Z.abs (IEEEFormat.min_exp fmt true))) k0)
    as (j' & Hr & _ & _ & Hstop & _).
  rewrite Hr, mul_two_pow2 by exact Hp.
  destruct Hstop as [Habs | Hcnt].
  - exfalso. exact (add_never_wider _ x _ HP Hwide Habs).
  - rewrite Z2Nat.id in Hcnt by lia. do 3 f_equal. lia.
Qed.

Lemma ulp_of_wider_number_witness :
  ∃ k, next_power (H := exact_log) 24 wide_number = Mpf 1 k
       ∧ IEEEFormat.ulp (H := exact_log) ieee_float wide_number (MpContext 53)
         = (Returns (Mpf 1 (k + 1 - 149)), MpContext 53).
Proof.
  refine (ulp_of_wider_number (H := exact_log) ieee_float wide_number
            (MpContext 53) _ _ _ _ _).
  - in_list.
  - simpl. lia.
  - right. reflexivity.
  - unfold fits. vm_compute. congruence.
  - unfold fits. vm_compute. intros Hle. apply Hle. reflexivity.
Defined.

(** ** util.py *)

(** X15.  [next_power(x)] of a nonzero number of the working precision,
    with its exponent in the range where [floor(log(x, 2)) + 1] is not
    rounded, is a power of two strictly above [|x|] and at most two
    doublings above the power of two at or below [|x|]; at zero it is
    zero, where the docstring's "smallest [n^k > |x|]" does not exist. *)
Theorem next_power_bounds `{MpLog} (prec : Z) (x : mpf) :
  1 ≤ prec → mpf_wf x → fits prec x →
  (mpf_man x = 0 → next_power prec x = zero)
  ∧ (mpf_man x ≠ 0 → log_in_range prec x →
     ∃ k, next_power prec x = Mpf 1 k
          ∧ mpf_ltb (mpf_abs prec x) (Mpf 1 k) = true
          ∧ mpf_leb (Mpf 1 (k - 2)) (mpf_abs prec x) = true).
Proof.
  intros Hp Hwf Hfit. destruct x as [m e].
  unfold fits in Hfit. cbn [mpf_man] in *. split.
  - intros ->. unfold next_power, mpf_abs. cbn [mpf_man mpf_exp].
    change (Z.abs 0) with 0. rewrite normalize_zero. reflexivity.
  - intros Hnz Hrange.
    assert (Ho : Z.odd m = true).
    { destruct Hwf as [[Hz _] | Ho]; [contradiction | exact Ho]. }
    destruct (next_power_in_range prec (Mpf m e) Hp Hwf Hnz Hfit Hrange)
      as (k & Hnp & Hk).
    cbn [mpf_man mpf_exp] in Hk.
    assert (Ea : mpf_abs prec (Mpf m e) = Mpf (Z.abs m) e).
    { unfold mpf_abs. cbn [mpf_man mpf_exp].
      apply normalize_fits_id; [rewrite odd_abs; exact Ho|].
      rewrite bitcount_abs. exact Hfit. }
    assert (Ha : 0 < Z.abs m) by lia.
    assert (Hbc : bitcount m = Z.log2 (Z.abs m) + 1).
    { unfold bitcount. destruct (Z.eqb_spec m 0); [contradiction | reflexivity]. }
    rewrite Ea.
    exists k. split; [exact Hnp|].
    remember (k - 1) as fl eqn:Efl.
    assert (Ek : k = fl + 1) by lia. rewrite Ek. clear Hnp.
    assert (Hlog : e + Z.log2 (Z.abs m) ≤ fl ≤ e + Z.log2 (Z.abs m) + 1)
      by lia.
    pose proof (Z.log2_spec (Z.abs m) Ha) as Hs.
    pose proof (Z.log2_nonneg (Z.abs m)) as Hl0.
    set (L := Z.log2 (Z.abs m)) in *.
    split.
    + unfold mpf_ltb, mpf_cmp. cbn [mpf_man mpf_exp].
      rewrite Z.min_l by lia. rewrite Z.sub_diag, Z.pow_0_r, Z.mul_1_r, Z.mul_1_l.
      assert (2 ^ Z.succ L ≤ 2 ^ (fl + 1 - e))
        by (apply Z.pow_le_mono_r; lia).
      assert (E : (Z.abs m ?= 2 ^ (fl + 1 - e)) = Lt)
        by (apply Z.compare_lt_iff; lia).
      rewrite E. reflexivity.
    + unfold mpf_leb, mpf_cmp. cbn [mpf_man mpf_exp]. rewrite Z.mul_1_l.
      set (emin := Z.min (fl + 1 - 2) e).
      assert (Hle : 2 ^ (fl + 1 - 2 - emin) ≤ Z.abs m * 2 ^ (e - emin)).
      { destruct (Z.le_gt_cases (fl + 1 - 2) e) as [Hje | Hje].
        - unfold emin. rewrite Z.min_l by lia.
          rewrite Z.sub_diag, Z.pow_0_r.
          assert (0 < 2 ^ (e - (fl + 1 - 2))) by (apply pow2_pos; lia). nia.
        - unfold emin. rewrite Z.min_r by lia.
          rewrite Z.sub_diag, Z.pow_0_r, Z.mul_1_r.
          assert (2 ^ (fl + 1 - 2 - e) ≤ 2 ^ L)
            by (apply Z.pow_le_mono_r; lia).
          lia. }
      destruct (Z.compare_spec (2 ^ (fl + 1 - 2 - emin))
                  (Z.abs m * 2 ^ (e - emin))); try reflexivity. lia.
Qed.

Lemma next_power_bounds_witness :
  ∃ k, next_power (H := exact_log) 53 (Mpf (-5) 3) = Mpf 1 k
       ∧ mpf_ltb (mpf_abs 53 (Mpf (-5) 3)) (Mpf 1 k) = true
       ∧ mpf_leb (Mpf 1 (k - 2)) (mpf_abs 53 (Mpf (-5) 3)) = true.
Proof.
  refine (proj2 (next_power_bounds (H := exact_log) 53 (Mpf (-5) 3) _ _ _)
            _ _).
  - lia.
  - right. reflexivity.
  - unfold fits. vm_compute. congruence.
  - simpl. lia.
  - unfold log_in_range. vm_compute. reflexivity.
Defined.

(** ** [axrange] *)

(** The [stop] argument as [axrange] reads it. *)
Definition axrange_end (arg0 : mpf) (args : list mpf) : mpf :=
  match args with [] => arg0 | end_ :: _ => end_ end.

Lemma axrange_args_run (arg0 : mpf) (args : list mpf) (s : mp_context) :
  axrange_args arg0 args s =
  match args with
  | [] => (Returns (mpf_pos (mp_prec s) zero, arg0, mpf_tenth (mp_prec s)), s)
  | [end_] => (Returns (arg0, end_, mpf_tenth (mp_prec s)), s)
  | [end_; step] => (Returns (arg0, end_, step), s)
  | _ => (Raises (TypeError "Too many arguments"), s)
  end.
Proof. destruct args as [|e1 [|e2 [|e3 rest]]]; reflexivity. Qed.

Lemma axrange_test_run (cur end_ step : mpf) (s : mp_context) :
  axrange_test cur end_ step s =
  if mpf_ltb cur end_
  then (Returns (Some cur, AxLoop cur end_ step), s)
  else (Returns (None, AxDone), s).
Proof. unfold axrange_test. destruct (mpf_ltb cur end_); reflexivity. Qed.

Lemma axrange_next_loop (cur end_ step : mpf) (s : mp_context) :
  axrange_next (AxLoop cur end_ step) s =
  let cur' := mpf_add (mp_prec s) cur step in
  if mpf_ltb cur' end_
  then (Returns (Some cur', AxLoop cur' end_ step), s)
  else (Returns (None, AxDone), s).
Proof.
  cbn [axrange_next]. unfold mp_add.
  rewrite run_bind, run_bind, get_prec_run. cbn [mret M_ret].
  apply axrange_test_run.
Qed.

Lemma axrange_next_start (arg0 : mpf) (args : list mpf) (s : mp_context) :
  axrange_next (AxStart arg0 args) s =
  match axrange_args arg0 args s with
  | (Returns (start, end_, step), s') =>
      if mpf_ltb start end_
      then (Returns (Some start, AxLoop start end_ step), s')
      else (Returns (None, AxDone), s')
  | (Raises e, s') => (Raises e, s')
  | (OutOfFuel, s') => (OutOfFuel, s')
  end.
Proof.
  cbn [axrange_next]. rewrite run_bind.
  destruct (axrange_args arg0 args s) as [[[[start end_] step] | e |] s'];
    try reflexivity.
  apply axrange_test_run.
Qed.

Lemma axrange_take_turn (n : nat) (gen : axrange_state) (s : mp_context) :
  axrange_take (S n) gen s =
  match axrange_next gen s with
  | (Returns (Some x, gen'), s1) =>
      match axrange_take n gen' s1 with
      | (Returns rest, s2) => (Returns (x :: rest), s2)
      | (Raises e, s2) => (Raises e, s2)
      | (OutOfFuel, s2) => (OutOfFuel, s2)
      end
  | (Returns (None, _), s1) => (Returns [], s1)
  | (Raises e, s1) => (Raises e, s1)
  | (OutOfFuel, s1) => (OutOfFuel, s1)
  end.
Proof.
  cbn [axrange_take]. rewrite run_bind.
  destruct (axrange_next gen s) as [[[[x|] gen'] | e |] s1]; try reflexivity;
    rewrite run_bind;
    destruct (axrange_take n gen' s1) as [[rest | e |] s2]; reflexivity.
Qed.

Lemma axrange_take_loop_below (end_ step : mpf) (s : mp_context) :
  ∀ (n : nat) (cur : mpf) (vs : list mpf) (s' : mp_context),
    axrange_take n (AxLoop cur end_ step) s = (Returns vs, s') →
    Forall (λ v, mpf_ltb v end_ = true) vs.
Proof.
  induction n as [|n IH]; intros cur vs s' Hrun.
  - inversion Hrun. constructor.
  - rewrite axrange_take_turn, axrange_next_loop in Hrun. cbv zeta in Hrun.
    destruct (mpf_ltb (mpf_add (mp_prec s) cur step) end_) eqn:Elt.
    + destruct (axrange_take n _ s) as [[rest | e |] s2] eqn:Et;
        try discriminate.
      inversion Hrun; subst. constructor; [exact Elt|].
      exact (IH _ _ _ Et).
    + inversion Hrun. constructor.
Qed.

(** X16.  Every value that [axrange] yields is strictly below its [stop]
    argument, however many values are taken and whatever the step. *)
Theorem axrange_below_end (n : nat) (arg0 : mpf) (args vs : list mpf)
    (s s' : mp_context) :
  axrange_take n (AxStart arg0 args) s = (Returns vs, s') →
  Forall (λ v, mpf_ltb v (axrange_end arg0 args) = true) vs.
Proof.
  destruct n as [|n]; intros Hrun.
  - inversion Hrun. constructor.
  - rewrite axrange_take_turn, axrange_next_start, axrange_args_run in Hrun.
    destruct args as [|e1 [|e2 [|e3 rest]]]; cbn [axrange_end];
      try discriminate.
    all: match type of Hrun with
         | context [mpf_ltb ?a ?b] => destruct (mpf_ltb a b) eqn:Elt
         end.
    all: try (inversion Hrun; constructor).
    all: destruct (axrange_take n _ s) as [[tl | e |] s2] eqn:Et;
         try discriminate.
    all: inversion Hrun; subst; constructor; [exact Elt|].
    all: exact (axrange_take_loop_below _ _ _ _ _ _ _ Et).
Qed.

Lemma axrange_below_end_witness :
  Forall (λ v, mpf_ltb v (axrange_end one []) = true)
    [zero; Mpf 3602879701896397 (-55); Mpf 3602879701896397 (-54)].
Proof.
  refine (axrange_below_end 3 one [] _ (MpContext 53) (MpContext 53) _).
  vm_compute. reflexivity.
Defined.

(** X17.  The arguments at their edges: a fourth positional value (more
    than three in all) raises [TypeError] at the first [next]; a start that is
    not below the stop gives an empty range. *)
Theorem axrange_edges (n : nat) (start end_ step extra : mpf)
    (more : list mpf) (s : mp_context) :
  axrange_next (AxStart start (end_ :: step :: extra :: more)) s
  = (Raises (TypeError "Too many arguments"), s)
  ∧ (mpf_ltb start end_ = false →
     axrange_take n (AxStart start [end_]) s = (Returns [], s)
     ∧ axrange_take n (AxStart start [end_; step]) s = (Returns [], s))
  ∧ (mpf_ltb zero end_ = false →
     axrange_take n (AxStart end_ []) s = (Returns [], s)).
Proof.
  split; [reflexivity|]. split.
  - intros Hge. destruct n as [|n]; [split; reflexivity|].
    rewrite !axrange_take_turn, !axrange_next_start, !axrange_args_run, Hge.
    split; reflexivity.
  - intros Hge. destruct n as [|n]; [reflexivity|].
    rewrite axrange_take_turn, axrange_next_start, axrange_args_run.
    assert (Ez : mpf_pos (mp_prec s) zero = zero) by apply normalize_zero.
    rewrite Ez, Hge. reflexivity.
Qed.

Lemma axrange_edges_witness :
  axrange_take 5 (AxStart (Mpf 1 1) [one]) (MpContext 53)
  = (Returns [], MpContext 53).
Proof.
  refine (proj1 (proj1 (proj2 (axrange_edges 5 (Mpf 1 1) one one one []
                                 (MpContext 53))) _)).
  vm_compute. reflexivity.
Defined.

(** Scaling a mantissa by a power of two needs no rounding. *)
Lemma normalize_shifted (prec m k e : Z) :
  Z.odd m = true → bitcount m ≤ prec → 0 ≤ k →
  normalize prec (m * 2 ^ k) e = Mpf m (e + k).
Proof.
  intros Ho Hb Hk.
  assert (Hnz : m ≠ 0) by (intros ->; discriminate).
  assert (K : 0 < 2 ^ k) by (apply pow2_pos; lia).
  assert (Hbc : bitcount (m * 2 ^ k) = bitcount m + k).
  { unfold bitcount.
    destruct (Z.eqb_spec m 0); [contradiction|].
    destruct (Z.eqb_spec (m * 2 ^ k) 0); [nia|].
    rewrite Z.abs_mul, (Z.abs_eq (2 ^ k)) by lia.
    rewrite Z.log2_mul_pow2 by lia. lia. }
  unfold normalize. rewrite Hbc.
  destruct (Z.ltb_spec 0 (bitcount m + k - prec)) as [Hn | Hn].
  - set (n := bitcount m + k - prec) in *.
    assert (Ek : 2 ^ k = 2 ^ (k - n) * 2 ^ n).
    { rewrite <- pow2_split by lia. f_equal. lia. }
    assert (N1 : 0 < 2 ^ (n - 1)) by (apply pow2_pos; lia).
    rewrite Z.abs_mul, (Z.abs_eq (2 ^ k)) by lia.
    replace (Z.abs m * 2 ^ k) with (Z.abs m * 2 ^ (k - n) * 2 ^ n + 0)
      by (rewrite Ek; ring).
    rewrite round_half_even_down by lia.
    replace (Z.sgn (m * 2 ^ k)) with (Z.sgn m)
      by (rewrite Z.sgn_mul, (Z.sgn_pos (2 ^ k)) by lia; ring).
    replace (Z.sgn m * (Z.abs m * 2 ^ (k - n))) with (m * 2 ^ (k - n))
      by (rewrite Z.mul_assoc, (Z.mul_comm (Z.sgn m)), Z.abs_sgn; reflexivity).
    rewrite trim_shift by (assumption || lia). f_equal. lia.
  - apply trim_shift; assumption.
Qed.

Lemma mpf_add_zero_r (prec : Z) (x : mpf) :
  mpf_wf x → fits prec x → mpf_add prec x zero = x.
Proof.
  intros Hwf Hfit. destruct x as [m e]. unfold fits in Hfit.
  unfold mpf_add. cbn [mpf_man mpf_exp zero] in *.
  rewrite Z.mul_0_l, Z.add_0_r.
  destruct Hwf as [[Hz He] | Ho]; cbn [mpf_man mpf_exp] in *.
  - subst. rewrite Z.mul_0_l. apply normalize_zero.
  - rewrite normalize_shifted by (assumption || lia). f_equal. lia.
Qed.

Lemma normalize_wf_fits (prec m e : Z) :
  1 ≤ prec →
  mpf_wf (normalize prec m e) ∧ fits prec (normalize prec m e).
Proof.
  intros Hp. destruct (Z.eq_dec m 0) as [-> | Hnz].
  - rewrite normalize_zero. split; [left; split; reflexivity|].
    unfold fits. change (bitcount (mpf_man zero)) with 0. lia.
  - destruct (normalize_spec prec m e Hp Hnz) as (_ & _ & Ho & Hb).
    split; [right; exact Ho | exact Hb].
Qed.

(** X18.  With a step of zero and a start below the stop, the generator
    yields the start value and then, at every further [next], the start
    rounded to the working precision by [cur += step]: without end when
    the rounded start is still below the stop, and not at all when
    rounding has lifted it to the stop.  A start that is a number of the
    working precision is its own rounding, and is yielded for ever. *)
Theorem axrange_zero_step (n : nat) (start end_ : mpf) (s : mp_context) :
  1 ≤ mp_prec s →
  mpf_ltb start end_ = true →
  let r := mpf_add (mp_prec s) start zero in
  axrange_take (S n) (AxStart start [end_; zero]) s
  = (Returns (start :: if mpf_ltb r end_ then replicate n r else []), s)
  ∧ (mpf_wf start → fits (mp_prec s) start → r = start).
Proof.
  intros Hp Hlt r. split.
  - assert (Hr : mpf_add (mp_prec s) r zero = r).
    { destruct (normalize_wf_fits (mp_prec s)
                  (mpf_man start * 2 ^ (mpf_exp start
                                        - Z.min (mpf_exp start) (mpf_exp zero))
                   + mpf_man zero * 2 ^ (mpf_exp zero
                                         - Z.min (mpf_exp start) (mpf_exp zero)))
                  (Z.min (mpf_exp start) (mpf_exp zero)) Hp) as [Hwf Hfit].
      apply mpf_add_zero_r; assumption. }
    assert (Hloop : mpf_ltb r end_ = true →
                    ∀ k, axrange_take k (AxLoop r end_ zero) s
                         = (Returns (replicate k r), s)).
    { intros Hrlt. induction k as [|k IH]; [reflexivity|].
      rewrite axrange_take_turn, axrange_next_loop. cbv zeta.
      rewrite Hr, Hrlt, IH. reflexivity. }
    rewrite axrange_take_turn, axrange_next_start, axrange_args_run, Hlt.
    destruct n as [|n].
    + cbn [axrange_take replicate]. destruct (mpf_ltb r end_); reflexivity.
    + rewrite axrange_take_turn, axrange_next_loop. cbv zeta. fold r.
      destruct (mpf_ltb r end_) eqn:Erlt; [|reflexivity].
      rewrite (Hloop eq_refl). reflexivity.
  - intros Hwf Hfit. apply mpf_add_zero_r; assumption.
Qed.

Lemma axrange_zero_step_witness :
  axrange_take 4 (AxStart (Mpf 3 (-1)) [Mpf 1 1; zero]) (MpContext 53)
  = (Returns (replicate 4 (Mpf 3 (-1))), MpContext 53)
  ∧ axrange_take 4 (AxStart (Mpf (2 ^ 60 - 1) (-60)) [one; zero])
      (MpContext 53)
    = (Returns [Mpf (2 ^ 60 - 1) (-60)], MpContext 53).
Proof.
  split.
  - refine (proj1 (axrange_zero_step 3 (Mpf 3 (-1)) (Mpf 1 1) (MpContext 53)
                     _ _)).
    + simpl. lia.
    + vm_compute. reflexivity.
  - refine (proj1 (axrange_zero_step 3 (Mpf (2 ^ 60 - 1) (-60)) one
                     (MpContext 53) _ _)).
    + simpl. lia.
    + vm_compute. reflexivity.
Defined.

(** ** The callers in trig.py *)

Lemma two_phase_find_limit_unbound `{MpLog} (fuel : nat) (func : callable)
    (limit : limit_arg) (xstart xstop : option mpf) (nulp : Z)
    (prec : option Z) (s : mp_context) :
  FpLimits.find_limit FpLimits.module_globals fuel func limit
    xstart xstop nulp prec s
  = (Raises (if decide (prec_or prec (mp_prec s) ∈ known_precisions)
             then NameError "find_fp"
             else KeyError (prec_or prec (mp_prec s))), s).
Proof.
  destruct (known_precision_lookup (prec_or prec (mp_prec s))) as [Hyes Hno].
  case_decide as Hp.
  - destruct (Hyes Hp) as [fmt Hfmt].
    unfold FpLimits.find_limit. entry_point_fails Hfmt.
  - specialize (Hno Hp).
    unfold FpLimits.find_limit. entry_point_fails Hno.
Qed.

(** X19.  None of the five searches of [trig.py] produces a result, whatever
    mpmath's functions compute: each one ends in the [NameError] of
    [find_limit] (or in [KeyError] when the precision is none of 24, 53,
    63, 113), and leaves the working precision unchanged. *)
Theorem trig_searches_fail `{MpLog} (cos sin cospi sinpi : callable)
    (truediv : mpf → mpf → M mpf) (pio180 : mpf) (fuel : nat)
    (prec : option Z) (nulp : Z) (s : mp_context) :
  let e := if decide (prec_or prec (mp_prec s) ∈ known_precisions)
           then NameError "find_fp"
           else KeyError (prec_or prec (mp_prec s)) in
  cos_small cos FpLimits.module_globals fuel prec s = (Raises e, s)
  ∧ sin_small sin FpLimits.module_globals fuel prec s = (Raises e, s)
  ∧ cosd_small cospi truediv FpLimits.module_globals fuel prec s
    = (Raises e, s)
  ∧ sind_small sinpi truediv pio180 FpLimits.module_globals fuel prec nulp s
    = (Raises e, s)
  ∧ tand_small cospi sinpi truediv pio180 FpLimits.module_globals fuel
      prec nulp s = (Raises e, s).
Proof.
  intros e. unfold e, cos_small, sin_small, cosd_small, sind_small, tand_small.
  repeat split; apply two_phase_find_limit_unbound.
Qed.





